(** * use-iframe: the messaging protocol of [src/index.ts]

    A shallow embedding of the hooks [useIframe] and [useIframeSharedState]
    and of the envelope codec they share, followed by the properties of the
    protocol: codec round trip, marker discrimination, handshake gating,
    queue order, routing between sibling frames and the last-write-wins
    display rule.

    Conventions of the embedding.
    - A message is a JSON value ([json]).  JavaScript's [undefined] is
      [None] in an [option].
    - Numbers are the integral ones ([Z]); the serialisable ones are the
      safe integers.  A number literal with a fraction or an exponent is
      outside the model and [JSON_parse] reports it as a syntax error.
    - A string is a sequence of code units below 256 ([string]); an escape
      [\uXXXX] above that range is outside the model as well.
    - An object is the list of its own properties in property order;
      [JSON_parse] keeps the first position and the last value of a
      repeated key, as the platform does.
    - An exception is a value ([Throw]) of the type [result]. *)

From Stdlib Require Import Bool Arith ZArith NArith List String Ascii Lia.
From Stdlib Require Import Decimal DecimalString DecimalPos DecimalFacts.
Import ListNotations.

Local Open Scope list_scope.
Local Open Scope string_scope.

(** ** Exceptions *)

Inductive jsError := SyntaxError | TypeError.

Inductive result (A : Type) :=
| Ok (a : A)
| Throw (e : jsError).
Arguments Ok {A} a.
Arguments Throw {A} e.

Definition bind {A B} (r : result A) (k : A -> result B) : result B :=
  match r with
  | Ok a => k a
  | Throw e => Throw e
  end.

Notation "'do' x <- r ; k" := (bind r (fun x => k))
  (at level 10, x name, r at level 100, k at level 200).

(** [try { ... } catch (e) { return undefined }] *)
Definition tryCatch {A} (r : result (option A)) : option A :=
  match r with
  | Ok a => a
  | Throw _ => None
  end.

(** ** JSON values *)

#[local] Set Warnings "-register-all".

Inductive json :=
| JNull
| JBool (b : bool)
| JNum (n : Z)
| JStr (s : string)
| JArr (elems : list json)
| JObj (members : list (string * json)).

(** ToBoolean. *)
Definition truthy (v : json) : bool :=
  match v with
  | JNull => false
  | JBool b => b
  | JNum n => negb (n =? 0)%Z
  | JStr s => negb (s =? "")
  | JArr _ => true
  | JObj _ => true
  end.

Fixpoint assoc (k : string) (l : list (string * json)) : option json :=
  match l with
  | [] => None
  | (k', v) :: r => if k' =? k then Some v else assoc k r
  end.

(** [v.k] for a key [k] that no prototype defines: the own property of an
    object, [undefined] on anything else. *)
Definition getProp (k : string) (v : json) : option json :=
  match v with
  | JObj l => assoc k l
  | _ => None
  end.

(** [k in v]: a TypeError on a primitive, false on an array (for a key that
    is neither an index nor on the prototype chain). *)
Definition hasProp (k : string) (v : json) : result bool :=
  match v with
  | JObj l => Ok (match assoc k l with Some _ => true | None => false end)
  | JArr _ => Ok false
  | _ => Throw TypeError
  end.

(** ** JSON.stringify *)

Definition dquote : ascii := "034".
Definition bslash : ascii := "\".

Definition hexDigit (n : N) : ascii :=
  match n with
  | 0 => "0" | 1 => "1" | 2 => "2" | 3 => "3" | 4 => "4"
  | 5 => "5" | 6 => "6" | 7 => "7" | 8 => "8" | 9 => "9"
  | 10 => "a" | 11 => "b" | 12 => "c" | 13 => "d" | 14 => "e"
  | _ => "f"
  end%N%char.

(** QuoteJSONString, one code unit. *)
Definition quoteChar (c : ascii) : string :=
  if (c =? "008")%char then "\b" else
  if (c =? "009")%char then "\t" else
  if (c =? "010")%char then "\n" else
  if (c =? "012")%char then "\f" else
  if (c =? "013")%char then "\r" else
  if (c =? dquote)%char then String bslash (String dquote "") else
  if (c =? bslash)%char then "\\" else
  if (N_of_ascii c <? 32)%N then
    "\u00" ++ String (hexDigit (N_of_ascii c / 16))
                     (String (hexDigit (N_of_ascii c mod 16)) "")
  else String c "".

Fixpoint quoteChars (s : string) : string :=
  match s with
  | "" => ""
  | String c r => quoteChar c ++ quoteChars r
  end.

Definition quoteString (s : string) : string :=
  String dquote (quoteChars s ++ String dquote "").

(** Number::toString on an integer below 10^21. *)
Definition numberToString (n : Z) : string :=
  match n with
  | Z0 => "0"
  | Zpos p => NilEmpty.string_of_uint (Pos.to_uint p)
  | Zneg p => String "-" (NilEmpty.string_of_uint (Pos.to_uint p))
  end.

Fixpoint JSON_stringify (v : json) : string :=
  match v with
  | JNull => "null"
  | JBool true => "true"
  | JBool false => "false"
  | JNum n => numberToString n
  | JStr s => quoteString s
  | JArr l =>
      "[" ++
      (fix elems (l : list json) : string :=
         match l with
         | [] => "]"
         | x :: r =>
             JSON_stringify x ++
             match r with [] => "]" | _ :: _ => "," ++ elems r end
         end) l
  | JObj l =>
      "{" ++
      (fix mems (l : list (string * json)) : string :=
         match l with
         | [] => "}"
         | (k, x) :: r =>
             quoteString k ++ ":" ++ JSON_stringify x ++
             match r with [] => "}" | _ :: _ => "," ++ mems r end
         end) l
  end.

(** ** JSON.parse *)

Definition isWs (c : ascii) : bool :=
  ((c =? " ") || (c =? "009") || (c =? "010") || (c =? "013"))%char.

Fixpoint skip_ws (s : string) : string :=
  match s with
  | String c r => if isWs c then skip_ws r else s
  | "" => ""
  end.

Definition digitOf (c : ascii) : option (uint -> uint) :=
  match c with
  | "0" => Some D0 | "1" => Some D1 | "2" => Some D2 | "3" => Some D3
  | "4" => Some D4 | "5" => Some D5 | "6" => Some D6 | "7" => Some D7
  | "8" => Some D8 | "9" => Some D9
  | _ => None
  end%char.

Fixpoint read_digits (s : string) : uint * string :=
  match s with
  | String c r =>
      match digitOf c with
      | Some d => let (u, rest) := read_digits r in (d u, rest)
      | None => (Nil, s)
      end
  | "" => (Nil, "")
  end.

(** The integer part of the number grammar: [0] or a digit from 1 to 9
    followed by digits. *)
Definition parse_nat (s : string) : option (Z * string) :=
  let (u, rest) := read_digits s in
  if uint_beq (unorm u) u then Some (Z.of_N (N.of_uint u), rest) else None.

Definition parse_number (s : string) : option (json * string) :=
  match s with
  | String c r =>
      if (c =? "-")%char then
        match parse_nat r with
        | Some (n, rest) => Some (JNum (- n), rest)
        | None => None
        end
      else
        match parse_nat s with
        | Some (n, rest) => Some (JNum n, rest)
        | None => None
        end
  | "" => None
  end.

(** The value of a hexadecimal digit, in either case. *)
Definition hexVal (c : ascii) : option N :=
  let n := N_of_ascii c in
  if ((48 <=? n) && (n <=? 57))%N then Some (n - 48)%N
  else if ((97 <=? n) && (n <=? 102))%N then Some (n - 87)%N
  else if ((65 <=? n) && (n <=? 70))%N then Some (n - 55)%N
  else None.

Definition unescape (c : ascii) : option ascii :=
  if (c =? dquote)%char then Some dquote else
  if (c =? bslash)%char then Some bslash else
  if (c =? "/")%char then Some "/"%char else
  if (c =? "b")%char then Some "008"%char else
  if (c =? "f")%char then Some "012"%char else
  if (c =? "n")%char then Some "010"%char else
  if (c =? "r")%char then Some "013"%char else
  if (c =? "t")%char then Some "009"%char else None.

Definition codeUnit (a b c d : ascii) : option ascii :=
  match hexVal a, hexVal b, hexVal c, hexVal d with
  | Some x, Some y, Some z, Some w =>
      let code := (((x * 16 + y) * 16 + z) * 16 + w)%N in
      if (code <? 256)%N then Some (ascii_of_N code) else None
  | _, _, _, _ => None
  end.

Definition consChar (c : option ascii) (r : option (string * string))
  : option (string * string) :=
  match c, r with
  | Some c, Some (s, rest) => Some (String c s, rest)
  | _, _ => None
  end.

(** The characters of a string literal after its opening quote, up to and
    with the closing quote. *)
Fixpoint parse_chars (s : string) : option (string * string) :=
  match s with
  | "" => None
  | String c r =>
      if (c =? dquote)%char then Some ("", r)
      else if (c =? bslash)%char then
        match r with
        | String e r1 =>
            if (e =? "u")%char then
              match r1 with
              | String h1 (String h2 (String h3 (String h4 r2))) =>
                  consChar (codeUnit h1 h2 h3 h4) (parse_chars r2)
              | _ => None
              end
            else consChar (unescape e) (parse_chars r1)
        | "" => None
        end
      else if (N_of_ascii c <? 32)%N then None
      else consChar (Some c) (parse_chars r)
  end.

Fixpoint expect (lit s : string) : option string :=
  match lit, s with
  | "", _ => Some s
  | String a l, String b r => if (a =? b)%char then expect l r else None
  | String _ _, "" => None
  end.

(** CreateDataProperty during a parse: a repeated key keeps its place and
    takes the later value. *)
Fixpoint setMember (l : list (string * json)) (k : string) (v : json)
  : list (string * json) :=
  match l with
  | [] => [(k, v)]
  | (k', v') :: r =>
      if k' =? k then (k', v) :: r else (k', v') :: setMember r k v
  end.

Definition mkObject (l : list (string * json)) : json :=
  JObj (fold_left (fun acc kv => setMember acc (fst kv) (snd kv)) l []).

(** The next token is the punctuation [c]. *)
Definition accept (c : ascii) (s : string) : option string :=
  match skip_ws s with
  | String c' r => if (c' =? c)%char then Some r else None
  | "" => None
  end.

Fixpoint parse_value (fuel : nat) (s : string) {struct fuel}
  : option (json * string) :=
  match fuel with
  | O => None
  | S f =>
      match skip_ws s with
      | "" => None
      | String c r =>
          if (c =? "n")%char then option_map (pair JNull) (expect "ull" r)
          else if (c =? "t")%char then
            option_map (pair (JBool true)) (expect "rue" r)
          else if (c =? "f")%char then
            option_map (pair (JBool false)) (expect "alse" r)
          else if (c =? dquote)%char then
            match parse_chars r with
            | Some (str, rest) => Some (JStr str, rest)
            | None => None
            end
          else if (c =? "[")%char then
            match accept "]" r with
            | Some rest => Some (JArr [], rest)
            | None =>
                match parse_elements f r with
                | Some (l, rest) => Some (JArr l, rest)
                | None => None
                end
            end
          else if (c =? "{")%char then
            match accept "}" r with
            | Some rest => Some (JObj [], rest)
            | None =>
                match parse_members f r with
                | Some (l, rest) => Some (mkObject l, rest)
                | None => None
                end
            end
          else parse_number (String c r)
      end
  end
with parse_elements (fuel : nat) (s : string) {struct fuel}
  : option (list json * string) :=
  match fuel with
  | O => None
  | S f =>
      match parse_value f s with
      | Some (v, r) =>
          match accept "," r with
          | Some r1 =>
              match parse_elements f r1 with
              | Some (l, rest) => Some (v :: l, rest)
              | None => None
              end
          | None =>
              match accept "]" r with
              | Some rest => Some ([v], rest)
              | None => None
              end
          end
      | None => None
      end
  end
with parse_members (fuel : nat) (s : string) {struct fuel}
  : option (list (string * json) * string) :=
  match fuel with
  | O => None
  | S f =>
      match accept dquote s with
      | Some r =>
          match parse_chars r with
          | Some (k, r1) =>
              match accept ":" r1 with
              | Some r2 =>
                  match parse_value f r2 with
                  | Some (v, r3) =>
                      match accept "," r3 with
                      | Some r4 =>
                          match parse_members f r4 with
                          | Some (l, rest) => Some ((k, v) :: l, rest)
                          | None => None
                          end
                      | None =>
                          match accept "}" r3 with
                          | Some rest => Some ([(k, v)], rest)
                          | None => None
                          end
                      end
                  | None => None
                  end
              | None => None
              end
          | None => None
          end
      | None => None
      end
  end.

(** [JSON.parse] of a string: the whole text is one value, white space
    apart.  The fuel is enough for every text ([JSON_parse_fuel]): each call
    that uses fuel has read a character of its own. *)
Definition JSON_parse (s : string) : result json :=
  match parse_value (S (String.length s)) s with
  | Some (v, rest) =>
      match skip_ws rest with
      | "" => Ok v
      | String _ _ => Throw SyntaxError
      end
  | None => Throw SyntaxError
  end.

(** ToString, as [JSON.parse] applies it to an argument that is not a
    string. *)
Fixpoint toString (v : json) : string :=
  match v with
  | JNull => "null"
  | JBool true => "true"
  | JBool false => "false"
  | JNum n => numberToString n
  | JStr s => s
  | JArr l =>
      (fix join (l : list json) : string :=
         match l with
         | [] => ""
         | x :: r =>
             match x with JNull => "" | _ => toString x end ++
             match r with [] => "" | _ :: _ => "," ++ join r end
         end) l
  | JObj _ => "[object Object]"
  end.

Definition toStringOpt (v : option json) : string :=
  match v with
  | Some x => toString x
  | None => "undefined"
  end.

(** The values [JSON.stringify] takes to a text that [JSON.parse] takes
    back: safe integers, and objects whose keys are distinct. *)
Definition safeInteger (n : Z) : bool :=
  (Z.abs n <? 2 ^ 53)%Z.

Fixpoint distinct (l : list string) : bool :=
  match l with
  | [] => true
  | k :: r => negb (existsb (String.eqb k) r) && distinct r
  end.

Fixpoint serializable (v : json) : bool :=
  match v with
  | JNum n => safeInteger n
  | JArr l => forallb serializable l
  | JObj l =>
      distinct (map fst l) &&
      (fix all (l : list (string * json)) : bool :=
         match l with
         | [] => true
         | (_, x) :: r => serializable x && all r
         end) l
  | _ => true
  end.

(** ** The envelope codec *)

Definition packetId : string := "__fromUseIframeHook".

Definition encodeMessage (message : json) (fromId : option string) : string :=
  JSON_stringify
    (JObj ((match fromId with
            | Some s => [("fromId", JStr s)]
            | None => []
            end)
           ++ [("payload", JStr (JSON_stringify message));
               (packetId, JBool true)])%list).

Definition isTrue (v : option json) : bool :=
  match v with
  | Some (JBool true) => true
  | _ => false
  end.

(** The body of the [try] block of [decodeMessage]. *)
Definition decodeBody (raw : string) : result (option (json * option json)) :=
  do decoded <- JSON_parse raw;
  do present <- hasProp packetId decoded;
  if present && isTrue (getProp packetId decoded) then
    do message <- JSON_parse (toStringOpt (getProp "payload" decoded));
    Ok (Some (message, getProp "fromId" decoded))
  else Ok None.

Definition decodeMessage (raw : string) : option (json * option json) :=
  tryCatch (decodeBody raw).

(** [message.hasOwnProperty("__private") && "__private" in message &&
    message.__private === true]: the method is found on the prototype
    unless the message has a property of that name, which a JSON value
    cannot make callable. *)
Definition isPrivateMessage (message : json) : result bool :=
  match message with
  | JNull => Throw TypeError
  | JObj l =>
      match assoc "hasOwnProperty" l with
      | Some _ => Throw TypeError
      | None => Ok (match assoc "__private" l with
                    | Some _ => isTrue (assoc "__private" l)
                    | None => false
                    end)
      end
  | _ => Ok false
  end.

(** ** The surroundings of one call of [useIframe] *)

Module Iframe.
Record t := { id : string; contentWindow : bool }.
End Iframe.

(** [ref]: [options?.ref], and inside it [ref.current] as it is from the
    first commit on (during the first render the element is not attached
    yet and [ref.current] is null).
    [isTop]: [window === window.top].
    [ownFrame]: the frame of the enclosing document whose content window is
    this window, as the child effect finds it.
    [handleMessage]: the caller's handler, as the list of the messages it
    submits through the dispatcher it is given. *)
Record Env := {
  ref : option (option Iframe.t);
  isTop : bool;
  ownFrame : option Iframe.t;
  handleMessage : json -> list json
}.

Definition current (env : Env) : option Iframe.t :=
  match ref env with
  | Some c => c
  | None => None
  end.

Definition isParent (env : Env) : bool :=
  match ref env with
  | Some _ => true
  | None => false
  end.

Definition isChild (env : Env) : bool :=
  negb (isParent env) && negb (isTop env).

(** ** The state of the hook *)

Record State := {
  iframeId : option string;
  queue : list json;
  childId : option string
}.

Inductive Update :=
| SetIframeId (v : option string)
| SetQueueAppend (message : json)   (* q => [...q, message] *)
| SetQueueSlice                     (* q => q.slice(1) *)
| SetChildId (v : option string).

Definition applyUpdate (s : State) (u : Update) : State :=
  match u with
  | SetIframeId v =>
      {| iframeId := v; queue := queue s; childId := childId s |}
  | SetQueueAppend m =>
      {| iframeId := iframeId s; queue := (queue s ++ [m])%list;
         childId := childId s |}
  | SetQueueSlice =>
      {| iframeId := iframeId s; queue := tl (queue s); childId := childId s |}
  | SetChildId v =>
      {| iframeId := iframeId s; queue := queue s; childId := v |}
  end.

Definition applyUpdates (us : list Update) (s : State) : State :=
  fold_left applyUpdate us s.

Definition isChildMounted (s : State) : bool :=
  match childId s with
  | Some _ => true
  | None => false
  end.

Inductive Target := ToFrame (frame : string) | ToParent.

(** One call [target.postMessage(data, "*")]. *)
Record Posted := { target : Target; data : string }.

(** The passive effects a render leaves to run. *)
Inductive Due :=
| NoEffects
| MountEffects
| UpdateEffects (drain : bool).

(** [state]: the state of the last render.
    [updates]: the state updates queued since, oldest first.
    [due]: the effects of the last render that have not run yet.
    [savedHandler]: the [iframeId] the registered listener closes over;
    [None] while no listener is registered.
    [thrown]: a render has thrown and the component is gone.
    [outbox]: the calls of [window.postMessage], oldest first.
    [delivered]: the calls of the caller's handler.
    [submitted]: the messages given to [dispatch] and [dispatchPrivate].
    [transmitted]: the messages the drain effect gave to [postMessage]. *)
Record Hook := {
  state : State;
  updates : list Update;
  due : Due;
  savedHandler : option (option string);
  thrown : bool;
  outbox : list Posted;
  delivered : list json;
  submitted : list json;
  transmitted : list json
}.

Definition initialState : State :=
  {| iframeId := None; queue := []; childId := None |}.

(** The hook after its first render. *)
Definition mount : Hook :=
  {| state := initialState; updates := []; due := MountEffects;
     savedHandler := None; thrown := false; outbox := []; delivered := [];
     submitted := []; transmitted := [] |}.

Definition setState (u : Update) (h : Hook) : Hook :=
  {| state := state h; updates := (updates h ++ [u])%list; due := due h;
     savedHandler := savedHandler h; thrown := thrown h; outbox := outbox h;
     delivered := delivered h; submitted := submitted h;
     transmitted := transmitted h |}.

Definition logSubmitted (m : json) (h : Hook) : Hook :=
  {| state := state h; updates := updates h; due := due h;
     savedHandler := savedHandler h; thrown := thrown h; outbox := outbox h;
     delivered := delivered h; submitted := (submitted h ++ [m])%list;
     transmitted := transmitted h |}.

Definition logDelivered (m : json) (h : Hook) : Hook :=
  {| state := state h; updates := updates h; due := due h;
     savedHandler := savedHandler h; thrown := thrown h; outbox := outbox h;
     delivered := (delivered h ++ [m])%list; submitted := submitted h;
     transmitted := transmitted h |}.

Definition logPosted (m : json) (ps : list Posted) (h : Hook) : Hook :=
  {| state := state h; updates := updates h; due := due h;
     savedHandler := savedHandler h; thrown := thrown h;
     outbox := (outbox h ++ ps)%list;
     delivered := delivered h; submitted := submitted h;
     transmitted := (transmitted h ++ [m])%list |}.

Definition saveHandler (h : Hook) : Hook :=
  {| state := state h; updates := updates h; due := due h;
     savedHandler := Some (iframeId (state h)); thrown := thrown h;
     outbox := outbox h; delivered := delivered h; submitted := submitted h;
     transmitted := transmitted h |}.

Definition setDue (d : Due) (h : Hook) : Hook :=
  {| state := state h; updates := updates h; due := d;
     savedHandler := savedHandler h; thrown := thrown h; outbox := outbox h;
     delivered := delivered h; submitted := submitted h;
     transmitted := transmitted h |}.

Definition throwError (h : Hook) : Hook :=
  {| state := state h; updates := updates h; due := due h;
     savedHandler := savedHandler h; thrown := true; outbox := outbox h;
     delivered := delivered h; submitted := submitted h;
     transmitted := transmitted h |}.

Definition commit (s : State) (d : Due) (h : Hook) : Hook :=
  {| state := s; updates := []; due := d;
     savedHandler := savedHandler h; thrown := thrown h; outbox := outbox h;
     delivered := delivered h; submitted := submitted h;
     transmitted := transmitted h |}.

(** ** The callbacks of [useIframe] *)

Definition dispatch (message : json) (h : Hook) : Hook :=
  setState (SetQueueAppend message) (logSubmitted message h).

Definition dispatchPrivate (message : json) (h : Hook) : Hook :=
  setState (SetQueueAppend message) (logSubmitted message h).

Definition mountedMessage (id : string) : json :=
  JObj [("type", JStr "mounted"); ("id", JStr id); ("__private", JBool true)].

(** [a === b] for an identifier of the hook and a property of a packet. *)
Definition sameId (a : option string) (b : option json) : bool :=
  match a, b with
  | None, None => true
  | Some x, Some (JStr y) => x =? y
  | _, _ => false
  end.

Definition asId (v : option json) : option string :=
  match v with
  | Some (JStr s) => Some s
  | _ => None
  end.

Definition isMounted (v : option json) : bool :=
  match v with
  | Some (JStr s) => s =? "mounted"
  | _ => false
  end.

Definition handlePrivateMessage (iframeId : option string) (message : json)
    (h : Hook) : Hook :=
  if isMounted (getProp "type" message) then
    if sameId iframeId (getProp "id" message) then
      setState (SetChildId (asId (getProp "id" message))) h
    else h
  else h.

Definition postMessage (env : Env) (s : State) (message : json)
  : list Posted :=
  if isParent env then
    match current env with
    | Some f =>
        if Iframe.contentWindow f then
          [{| target := ToFrame (Iframe.id f);
              data := encodeMessage message None |}]
        else []
    | None => []
    end
  else if isChild env then
    [{| target := ToParent; data := encodeMessage message (childId s) |}]
  else [].

(** The drain effect, run against the state of the render it belongs to. *)
Definition drainEffect (env : Env) (h : Hook) : Hook :=
  match queue (state h) with
  | message :: _ =>
      if isParent env then
        if truthy message && isChildMounted (state h) then
          logPosted message (postMessage env (state h) message)
            (setState SetQueueSlice h)
        else h
      else if isChild env then
        if truthy message then
          logPosted message (postMessage env (state h) message)
            (setState SetQueueSlice h)
        else h
      else h
  | [] => h
  end.

(** The effect that reads the frame's identifier: [setIframeId(ref?.current?.id)]. *)
Definition iframeIdEffect (env : Env) (h : Hook) : Hook :=
  setState (SetIframeId (option_map Iframe.id (current env))) h.

(** The effect of a child: announce the frame and take its identifier. *)
Definition childMountEffect (env : Env) (h : Hook) : Hook :=
  if isChild env then
    match ownFrame env with
    | Some iframe =>
        setState (SetChildId (Some (Iframe.id iframe)))
          (dispatchPrivate (mountedMessage (Iframe.id iframe)) h)
    | None => h
    end
  else h.

Definition deliver (env : Env) (message : json) (h : Hook) : Hook :=
  fold_left (fun h r => dispatch r h) (handleMessage env message)
    (logDelivered message h).

Definition eventListener (env : Env) (iframeId : option string)
    (raw : string) (h : Hook) : result Hook :=
  match decodeMessage raw with
  | Some (message, fromId) =>
      if truthy message then
        do private <- isPrivateMessage message;
        if private then Ok (handlePrivateMessage iframeId message h)
        else if isParent env then
          if sameId iframeId fromId then Ok (deliver env message h)
          else Ok h
        else if isChild env then Ok (deliver env message h)
        else Ok h
      else Ok h
  | None => Ok h
  end.

(** ** Renders, effects and events *)

Definition runEffects (env : Env) (h : Hook) : Hook :=
  match due h with
  | NoEffects => h
  | MountEffects =>
      setDue NoEffects
        (childMountEffect env
           (saveHandler (drainEffect env (iframeIdEffect env h))))
  | UpdateEffects drain =>
      setDue NoEffects
        (saveHandler (if drain then drainEffect env h else h))
  end.

Definition touchesQueue (u : Update) : bool :=
  match u with
  | SetQueueAppend _ | SetQueueSlice => true
  | _ => false
  end.

Definition sameOpt (a b : option string) : bool :=
  match a, b with
  | None, None => true
  | Some x, Some y => x =? y
  | _, _ => false
  end.

Definition falsyId (v : option string) : bool :=
  match v with
  | Some s => s =? ""
  | None => true
  end.

(** A render after the first one: the effects still due run first, the
    queued updates are applied in order, the hook throws when a parent's
    frame has no identifier, and the drain effect is due again when one of
    its dependencies ([queue], [isChildMounted], [postMessage]) changed. *)
Definition render (env : Env) (h : Hook) : Hook :=
  let h1 := runEffects env h in
  let s := applyUpdates (updates h1) (state h1) in
  if isParent env
     && (match current env with Some _ => true | None => false end)
     && falsyId (iframeId s)
  then throwError h1
  else
    commit s
      (UpdateEffects
         (existsb touchesQueue (updates h1)
          || negb (sameOpt (childId s) (childId (state h1)))))
      h1.

Inductive Event :=
| Dispatch (message : json)   (* the caller submits a message *)
| Effects                     (* the effects that are due run *)
| Render                      (* the component renders again *)
| Message (raw : string).     (* a message event reaches the window *)

Definition step (env : Env) (h : Hook) (e : Event) : Hook :=
  if thrown h then h
  else
    match e with
    | Dispatch m => dispatch m h
    | Effects => runEffects env h
    | Render => render env h
    | Message raw =>
        match savedHandler h with
        | Some iframeId =>
            match eventListener env iframeId raw h with
            | Ok h' => h'
            | Throw _ => h
            end
        | None => h
        end
    end.

Definition run (env : Env) (es : list Event) (h : Hook) : Hook :=
  fold_left (step env) es h.

(** ** [useIframeSharedState] *)

Module Shared.

(** [SharedStateMessageType<S>]; its [type] is the constant
    ["__private_set-state"]. *)
Record SharedStateMessageType := { state : json; time : Z }.

Inductive Update :=
| SetInternalState (v : json)
| SetRemoteState (v : json).

(** [local], [remote]: the two fields of [stateAge.current].
    [updates]: the state updates queued for the next render.
    [dispatched]: the messages given to the dispatcher of the link. *)
Record t := {
  local : Z;
  remote : Z;
  internalState : json;
  remoteState : json;
  updates : list Update;
  dispatched : list SharedStateMessageType
}.

(** The value the hook returns from a render. *)
Definition observed (s : t) : json :=
  if (local s >? remote s)%Z then internalState s else remoteState s.

Definition handler (message : SharedStateMessageType) (s : t) : t :=
  {| local := local s; remote := time message;
     internalState := internalState s; remoteState := remoteState s;
     updates := (updates s ++ [SetRemoteState (state message)])%list;
     dispatched := dispatched s |}.

(** A call of the setter the hook returns, with a value that is not the
    current one. *)
Definition setInternalState (v : json) (s : t) : t :=
  {| local := local s; remote := remote s;
     internalState := internalState s; remoteState := remoteState s;
     updates := (updates s ++ [SetInternalState v])%list;
     dispatched := dispatched s |}.

(** The effect on [internalState]; [now] is [new Date().getTime()]. *)
Definition effect (now : Z) (s : t) : t :=
  {| local := now; remote := remote s;
     internalState := internalState s; remoteState := remoteState s;
     updates := updates s;
     dispatched :=
       (dispatched s ++ [{| state := internalState s; time := now |}])%list |}.

Definition applyUpdate (s : t) (u : Update) : t :=
  match u with
  | SetInternalState v =>
      {| local := local s; remote := remote s; internalState := v;
         remoteState := remoteState s; updates := updates s;
         dispatched := dispatched s |}
  | SetRemoteState v =>
      {| local := local s; remote := remote s;
         internalState := internalState s; remoteState := v;
         updates := updates s; dispatched := dispatched s |}
  end.

Definition isMutation (u : Update) : bool :=
  match u with
  | SetInternalState _ => true
  | SetRemoteState _ => false
  end.

Definition clear (s : t) : t :=
  {| local := local s; remote := remote s;
     internalState := internalState s; remoteState := remoteState s;
     updates := []; dispatched := dispatched s |}.

(** The first render at clock reading [now0], then its effect at [now]. *)
Definition mount (initialState : json) (now0 now : Z) : json * t :=
  let s := {| local := now0; remote := 0; internalState := initialState;
              remoteState := initialState; updates := [];
              dispatched := [] |} in
  (observed s, effect now s).

(** A later render, and after it the effect when [internalState]
    changed: the value is computed before the effect stamps the change. *)
Definition render (now : Z) (s : t) : json * t :=
  let s1 := clear (fold_left applyUpdate (updates s) s) in
  (observed s1,
   if existsb isMutation (updates s) then effect now s1 else s1).

(** A local mutation seen through: the setter, the render and its
    effect at clock reading [now]. *)
Definition mutate (v : json) (now : Z) (s : t) : t :=
  snd (render now (setInternalState v s)).

(** The message as the link carries it. *)
Definition toJson (m : SharedStateMessageType) : json :=
  JObj [("type", JStr "__private_set-state"); ("state", state m);
        ("time", JNum (time m))].

End Shared.

(** ** Notions the proofs use *)

(** The printers of the elements of an array and of the members of an
    object, as [JSON_stringify] has them inside. *)
Definition stringify_elems : list json -> string :=
  fix elems (l : list json) : string :=
    match l with
    | [] => "]"
    | x :: r =>
        JSON_stringify x ++
        match r with [] => "]" | _ :: _ => "," ++ elems r end
    end.

Definition stringify_members : list (string * json) -> string :=
  fix mems (l : list (string * json)) : string :=
    match l with
    | [] => "}"
    | (k, x) :: r =>
        quoteString k ++ ":" ++ JSON_stringify x ++
        match r with [] => "}" | _ :: _ => "," ++ mems r end
    end.

(** The fuel [parse_value] needs for the text of a value. *)
Fixpoint size (v : json) : nat :=
  match v with
  | JArr l =>
      S ((fix go (l : list json) : nat :=
            match l with
            | [] => 0
            | x :: r => S (size x + go r)
            end) l)
  | JObj l =>
      S ((fix go (l : list (string * json)) : nat :=
            match l with
            | [] => 0
            | (_, x) :: r => S (size x + go r)
            end) l)
  | _ => 1
  end.

Definition size_elems : list json -> nat :=
  fix go (l : list json) : nat :=
    match l with
    | [] => 0
    | x :: r => S (size x + go r)
    end.

Definition size_members : list (string * json) -> nat :=
  fix go (l : list (string * json)) : nat :=
    match l with
    | [] => 0
    | (_, x) :: r => S (size x + go r)
    end.

(** A text after which a number ends: it does not go on with a digit. *)
Definition delimited (s : string) : bool :=
  match s with
  | String c _ => match digitOf c with Some _ => false | None => true end
  | "" => true
  end.

Definition numStart (c : ascii) : bool :=
  (c =? "-")%char || match digitOf c with Some _ => true | None => false end.

(** What the parser does on the text of a value followed by [rest]. *)
Definition parses (v : json) : Prop :=
  forall fuel rest, size v <= fuel -> delimited rest = true ->
    parse_value fuel (JSON_stringify v ++ rest) = Some (v, rest).

(** A parse that succeeds reads at least one character, and succeeds
    with any fuel that is at least the number of characters it reads. *)
Definition adequate {A} (parse : nat -> string -> option (A * string))
    (f : nat) : Prop :=
  forall s v r, parse f s = Some (v, r) ->
    String.length r < String.length s
    /\ forall f', String.length s - String.length r <= f' ->
         parse f' s = Some (v, r).

(** ** Notions the claims use *)

(** A text that parses to an object whose marker property is [true]. *)
Definition markerTagged (raw : string) : bool :=
  match JSON_parse raw with
  | Ok (JObj l) => isTrue (assoc packetId l)
  | _ => false
  end.

(** The queue as the next render will have it. *)
Definition pendingQueue (h : Hook) : list json :=
  queue (applyUpdates (updates h) (state h)).

(** [k] drain cycles: a render, then its effects. *)
Definition cycles (k : nat) : list Event :=
  List.concat (repeat [Render; Effects] k).

Definition dispatchAll (rs : list json) (h : Hook) : Hook :=
  fold_left (fun h r => dispatch r h) rs h.

(** An event that is not the arrival of a [mounted] packet. *)
Definition notMounted (e : Event) : bool :=
  match e with
  | Message raw =>
      match decodeMessage raw with
      | Some (message, _) => negb (isMounted (getProp "type" message))
      | None => true
      end
  | _ => true
  end.

Definition setsChildId (u : Update) : bool :=
  match u with
  | SetChildId _ => true
  | _ => false
  end.

Definition isSlice (u : Update) : bool :=
  match u with
  | SetQueueSlice => true
  | _ => false
  end.

(** The gate of the drain effect. *)
Definition drains (env : Env) (s : State) : bool :=
  if isParent env then isChildMounted s else isChild env.

(** The check at the end of [useIframe] passes. *)
Definition identified (env : Env) (s : State) : bool :=
  negb (isParent env
        && (match current env with Some _ => true | None => false end)
        && falsyId (iframeId s)).


(** The state of a parent that no announcement has reached. *)
Definition pendingParent (h : Hook) : Prop :=
  outbox h = [] /\ transmitted h = []
  /\ childId (state h) = None
  /\ existsb setsChildId (updates h) = false.

(** What was handed to [postMessage] and what is still queued make up
    what was submitted; and no removal is queued while the effects of a
    render are still to run. *)
Definition conserves (h : Hook) : Prop :=
  (transmitted h ++ pendingQueue h)%list = submitted h
  /\ (due h = NoEffects \/ existsb isSlice (updates h) = false).

(** The window [postMessage] posts to is there. *)
Definition hasWindow (env : Env) : bool :=
  if isParent env then
    match current env with
    | Some f => Iframe.contentWindow f
    | None => false
    end
  else isChild env.

(** The sender identifier [postMessage] puts on a packet. *)
Definition senderId (env : Env) (s : State) : option string :=
  if isParent env then None else childId s.

(** The next render leaves the drain effect to run. *)
Definition rendersDrain (h : Hook) : bool :=
  existsb touchesQueue (updates h)
  || negb (sameOpt (childId (applyUpdates (updates h) (state h)))
             (childId (state h))).

(** The head of the queue is a message the drain effect takes. *)
Definition headReady (env : Env) (s : State) : bool :=
  match queue s with
  | m :: _ => truthy m && drains env s
  | [] => false
  end.

(** Between a drain and the next render the removal of the head is
    queued. *)
Definition sliceQueued (env : Env) (h : Hook) : Prop :=
  thrown h = false ->
  (due h = NoEffects \/ due h = UpdateEffects false) ->
  headReady env (state h) = true ->
  existsb isSlice (updates h) = true.

(** A hook that differs from [h] by updates queued behind those of [h]. *)
Definition extends (h h' : Hook) : Prop :=
  exists us,
    updates h' = (updates h ++ us)%list /\ state h' = state h
    /\ due h' = due h /\ thrown h' = thrown h.

(** ** The claims that fail, as the specification has them *)

(** On the order of the queue: after enough drain cycles the channel has
    carried the submitted messages, one packet each, in the order of
    submission. *)
Definition drainsInOrder (env : Env) (h : Hook) (ms : list json) : Prop :=
  exists k,
    map data (outbox (run env (map Dispatch ms ++ cycles k)%list h))
    = (map data (outbox h)
       ++ map (fun m => encodeMessage m (senderId env (state h))) ms)%list.



(** On the local stamp: a local change takes a stamp greater than the
    one before. *)
Definition stampIncreases (s : Shared.t) (v : json) (now : Z) : Prop :=
  (Shared.local s < Shared.local (Shared.mutate v now s))%Z.

(** ** A parent and a child around the frame A *)

Definition frameA : Iframe.t :=
  {| Iframe.id := "A"; Iframe.contentWindow := true |}.

Definition parentA : Env :=
  {| ref := Some (Some frameA); isTop := true; ownFrame := None;
     handleMessage := fun _ => [] |}.

Definition childA : Env :=
  {| ref := None; isTop := false; ownFrame := Some frameA;
     handleMessage := fun _ => [] |}.

Definition ping : json := JObj [("type", JStr "ping")].

(** The parent once its listener is registered. *)
Definition listeningA : Hook := run parentA [Effects; Render; Effects] mount.

(** The parent once the announcement of the frame has reached it. *)
Definition establishedA : Hook :=
  run parentA
    [Message (encodeMessage (mountedMessage "A") (Some "A")); Render; Effects]
    listeningA.

(** A parent whose frame has no content window, once an announcement
    with the identifier of the frame has reached it. *)
Definition frameW : Iframe.t :=
  {| Iframe.id := "W"; Iframe.contentWindow := false |}.

Definition parentW : Env :=
  {| ref := Some (Some frameW); isTop := true; ownFrame := None;
     handleMessage := fun _ => [] |}.

Definition establishedW : Hook :=
  run parentW
    [Effects; Render; Effects;
     Message (encodeMessage (mountedMessage "W") (Some "W")); Render; Effects]
    mount.

(** The parent with two messages submitted before the announcement of the
    frame arrives. *)
Definition waitingA : Hook :=
  run parentA
    (map Dispatch [ping; JNum 1]
     ++ [Render; Effects;
         Message (encodeMessage (mountedMessage "A") (Some "A"))])%list
    listeningA.

(** * Facts about the JSON model *)

Section JsonInduction.
Variable P : json -> Prop.
Hypothesis HNull : P JNull.
Hypothesis HBool : forall b, P (JBool b).
Hypothesis HNum : forall n, P (JNum n).
Hypothesis HStr : forall s, P (JStr s).
Hypothesis HArr : forall l, Forall P l -> P (JArr l).
Hypothesis HObj : forall l, Forall (fun kv => P (snd kv)) l -> P (JObj l).

Fixpoint json_induction (v : json) : P v :=
  match v with
  | JNull => HNull
  | JBool b => HBool b
  | JNum n => HNum n
  | JStr s => HStr s
  | JArr l =>
      HArr l ((fix go (l : list json) : Forall P l :=
                 match l with
                 | [] => Forall_nil _
                 | x :: r => Forall_cons x (json_induction x) (go r)
                 end) l)
  | JObj l =>
      HObj l ((fix go (l : list (string * json))
                 : Forall (fun kv => P (snd kv)) l :=
                 match l with
                 | [] => Forall_nil _
                 | kv :: r => Forall_cons kv (json_induction (snd kv)) (go r)
                 end) l)
  end.
End JsonInduction.

Lemma append_assoc (a b c : string) : (a ++ b) ++ c = a ++ (b ++ c).
Proof. induction a as [|x a IH]; simpl; [reflexivity | now rewrite IH]. Qed.

Lemma length_append (a b : string) :
  String.length (a ++ b) = String.length a + String.length b.
Proof. induction a as [|x a IH]; simpl; [reflexivity | now rewrite IH]. Qed.

Lemma read_digits_delimited rest :
  delimited rest = true -> read_digits rest = (Nil, rest).
Proof.
  destruct rest as [|c r]; simpl; [reflexivity|].
  destruct (digitOf c); [discriminate | reflexivity].
Qed.

Lemma read_digits_string_of_uint u rest :
  delimited rest = true ->
  read_digits (NilEmpty.string_of_uint u ++ rest) = (u, rest).
Proof.
  intros Hd. induction u; simpl;
    [now apply read_digits_delimited | now rewrite IHu ..].
Qed.

Lemma uint_beq_refl u : uint_beq u u = true.
Proof. now apply internal_uint_dec_lb. Qed.

Lemma parse_nat_pos p rest :
  delimited rest = true ->
  parse_nat (NilEmpty.string_of_uint (Pos.to_uint p) ++ rest)
  = Some (Zpos p, rest).
Proof.
  intros Hd. unfold parse_nat.
  rewrite read_digits_string_of_uint by assumption.
  assert (Hn : unorm (Pos.to_uint p) = Pos.to_uint p).
  { pose proof (Unsigned.to_of (Pos.to_uint p)) as H.
    rewrite Unsigned.of_to in H. now symmetry. }
  rewrite Hn, uint_beq_refl.
  unfold N.of_uint. now rewrite Unsigned.of_to.
Qed.

Lemma parse_value_number f c r :
  numStart c = true -> parse_value (S f) (String c r) = parse_number (String c r).
Proof.
  destruct c as [[] [] [] [] [] [] [] []]; try discriminate; intros _; reflexivity.
Qed.

Lemma string_of_uint_start u rest :
  u <> Nil ->
  exists c r, NilEmpty.string_of_uint u ++ rest = String c r
              /\ numStart c = true /\ (c =? "-")%char = false.
Proof.
  destruct u; [congruence | intros _; simpl; eexists; eexists; repeat split ..].
Qed.

Lemma parse_number_roundtrip n f rest :
  delimited rest = true ->
  parse_value (S f) (numberToString n ++ rest) = Some (JNum n, rest).
Proof.
  intros Hd. destruct n as [|p|p]; simpl numberToString.
  - change ("0" ++ rest) with (String "0" rest).
    rewrite parse_value_number by reflexivity.
    unfold parse_number, parse_nat. simpl.
    now rewrite read_digits_delimited.
  - destruct (string_of_uint_start (Pos.to_uint p) rest
                (Unsigned.to_uint_nonnil p)) as (c & r & E & Hs & Hm).
    pose proof (parse_nat_pos p rest Hd) as Hp. rewrite E in *.
    rewrite parse_value_number by assumption.
    unfold parse_number. now rewrite Hm, Hp.
  - change (String "-" (NilEmpty.string_of_uint (Pos.to_uint p)) ++ rest)
      with (String "-" (NilEmpty.string_of_uint (Pos.to_uint p) ++ rest)).
    rewrite parse_value_number by reflexivity.
    unfold parse_number. rewrite Ascii.eqb_refl.
    now rewrite parse_nat_pos.
Qed.

(** ** String literals *)

Lemma parse_chars_quoteChar c tail :
  parse_chars (quoteChar c ++ tail) = consChar (Some c) (parse_chars tail).
Proof.
  destruct c as [[] [] [] [] [] [] [] []]; reflexivity.
Qed.

Lemma parse_chars_quoteChars s rest :
  parse_chars (quoteChars s ++ String dquote rest) = Some (s, rest).
Proof.
  induction s as [|c s IH].
  - reflexivity.
  - simpl quoteChars. rewrite append_assoc, parse_chars_quoteChar, IH.
    reflexivity.
Qed.

Lemma quoteString_append s rest :
  quoteString s ++ rest = String dquote (quoteChars s ++ String dquote rest).
Proof.
  unfold quoteString. simpl. now rewrite append_assoc.
Qed.

Lemma parse_value_string s f rest :
  parse_value (S f) (quoteString s ++ rest) = Some (JStr s, rest).
Proof.
  rewrite quoteString_append.
  change (parse_value (S f) (String dquote (quoteChars s ++ String dquote rest)))
    with (match parse_chars (quoteChars s ++ String dquote rest) with
          | Some (str, r) => Some (JStr str, r)
          | None => None
          end).
  now rewrite parse_chars_quoteChars.
Qed.

(** ** Objects *)

Lemma setMember_fresh acc k v :
  existsb (fun k' => k' =? k) (map fst acc) = false ->
  setMember acc k v = (acc ++ [(k, v)])%list.
Proof.
  induction acc as [|[k' v'] acc IH]; simpl; [reflexivity|].
  intros H. apply orb_false_iff in H as [H1 H2].
  rewrite H1. now rewrite IH.
Qed.

Lemma distinct_app_fresh A k L :
  distinct (A ++ k :: L)%list = true ->
  existsb (fun k' => k' =? k) A = false.
Proof.
  induction A as [|a A IH]; simpl; [reflexivity|].
  intros H. apply andb_true_iff in H as [H1 H2].
  rewrite (IH H2), orb_false_r.
  apply negb_true_iff in H1. rewrite existsb_app in H1.
  apply orb_false_iff in H1 as [_ H1]. simpl in H1.
  now apply orb_false_iff in H1 as [H1 _].
Qed.

Lemma fold_setMember l : forall acc,
  distinct (map fst acc ++ map fst l)%list = true ->
  fold_left (fun acc kv => setMember acc (fst kv) (snd kv)) l acc
  = (acc ++ l)%list.
Proof.
  induction l as [|[k v] l IH]; intros acc H; simpl.
  - now rewrite List.app_nil_r.
  - simpl in H. rewrite setMember_fresh by (eapply distinct_app_fresh; eauto).
    rewrite IH.
    + now rewrite <- List.app_assoc.
    + rewrite map_app. simpl. now rewrite <- List.app_assoc.
Qed.

Lemma mkObject_distinct l :
  distinct (map fst l) = true -> mkObject l = JObj l.
Proof.
  intros H. unfold mkObject. now rewrite fold_setMember.
Qed.

Lemma stringify_arr l : JSON_stringify (JArr l) = String "[" (stringify_elems l).
Proof. reflexivity. Qed.

Lemma stringify_obj l : JSON_stringify (JObj l) = String "{" (stringify_members l).
Proof. reflexivity. Qed.

Lemma size_arr l : size (JArr l) = S (size_elems l).
Proof. reflexivity. Qed.

Lemma size_obj l : size (JObj l) = S (size_members l).
Proof. reflexivity. Qed.

Lemma accept_numStart c r : numStart c = true -> accept "]" (String c r) = None.
Proof.
  destruct c as [[] [] [] [] [] [] [] []]; try discriminate; reflexivity.
Qed.

Lemma accept_value v rest : accept "]" (JSON_stringify v ++ rest) = None.
Proof.
  destruct v as [|[]|[|p|p]|s|l|l]; try reflexivity.
  simpl JSON_stringify. simpl numberToString.
  destruct (string_of_uint_start (Pos.to_uint p) rest
              (Unsigned.to_uint_nonnil p)) as (c & r & E & Hs & _).
  rewrite E. now apply accept_numStart.
Qed.

Lemma serializable_arr l :
  serializable (JArr l) = true -> Forall (fun x => serializable x = true) l.
Proof.
  simpl. intros H. apply Forall_forall. intros x Hx.
  rewrite forallb_forall in H. now apply H.
Qed.

Lemma serializable_obj l :
  serializable (JObj l) = true ->
  distinct (map fst l) = true
  /\ Forall (fun kv => serializable (snd kv) = true) l.
Proof.
  simpl. intros H. apply andb_true_iff in H as [H1 H2]. split; [assumption|].
  clear H1. induction l as [|[k x] l IH]; constructor.
  - simpl. now apply andb_true_iff in H2 as [H2 _].
  - apply IH. now apply andb_true_iff in H2 as [_ H2].
Qed.

Lemma parse_elements_roundtrip l :
  Forall parses l -> l <> [] ->
  forall fuel rest, size_elems l <= fuel ->
    parse_elements fuel (stringify_elems l ++ rest) = Some (l, rest).
Proof.
  induction 1 as [|x r Hx Hr IH]; [congruence|]. intros _ fuel rest Hf.
  simpl in Hf. destruct fuel as [|f]; [lia|].
  destruct r as [|y r'].
  - simpl stringify_elems. rewrite append_assoc.
    cbn [parse_elements]. rewrite Hx by (reflexivity || lia).
    reflexivity.
  - change (stringify_elems (x :: y :: r'))
      with (JSON_stringify x ++ "," ++ stringify_elems (y :: r')).
    rewrite append_assoc. cbn [parse_elements].
    rewrite Hx by (reflexivity || lia).
    change (("," ++ stringify_elems (y :: r')) ++ rest)
      with (String "," (stringify_elems (y :: r') ++ rest)).
    change (accept "," (String "," (stringify_elems (y :: r') ++ rest)))
      with (Some (stringify_elems (y :: r') ++ rest)).
    cbv iota. rewrite IH by (congruence || lia). reflexivity.
Qed.

Lemma parse_members_roundtrip l :
  Forall (fun kv => parses (snd kv)) l -> l <> [] ->
  forall fuel rest, size_members l <= fuel ->
    parse_members fuel (stringify_members l ++ rest) = Some (l, rest).
Proof.
  induction 1 as [|[k x] r Hx Hr IH]; [congruence|]. intros _ fuel rest Hf.
  simpl in Hf, Hx. destruct fuel as [|f]; [lia|].
  assert (Hk : forall tail, delimited tail = true ->
    parse_members (S f) (quoteString k ++ ":" ++ JSON_stringify x ++ tail)
    = match accept "," tail with
      | Some r4 =>
          match parse_members f r4 with
          | Some (l, rest) => Some ((k, x) :: l, rest)
          | None => None
          end
      | None =>
          match accept "}" tail with
          | Some rest => Some ([(k, x)], rest)
          | None => None
          end
      end).
  { intros tail Ht. rewrite quoteString_append. cbn [parse_members].
    change (accept dquote (String dquote ?s)) with (Some s).
    cbv iota. rewrite parse_chars_quoteChars.
    change (accept ":" (":" ++ ?s)) with (Some s). cbv iota.
    rewrite Hx by (assumption || lia). reflexivity. }
  destruct r as [|y r'].
  - change (stringify_members [(k, x)])
      with (quoteString k ++ ":" ++ JSON_stringify x ++ "}").
    rewrite !append_assoc. rewrite Hk by reflexivity. reflexivity.
  - change (stringify_members ((k, x) :: y :: r'))
      with (quoteString k ++ ":" ++ JSON_stringify x ++ ","
            ++ stringify_members (y :: r')).
    rewrite !append_assoc. rewrite Hk by reflexivity.
    change (accept "," ("," ++ ?s)) with (Some s). cbv iota.
    rewrite IH by (congruence || lia). reflexivity.
Qed.

Theorem parse_stringify v : serializable v = true -> parses v.
Proof.
  induction v as [| b | n | s | l IH | l IH] using json_induction;
    intros Hs fuel rest Hf Hd.
  - destruct fuel; [simpl in Hf; lia | reflexivity].
  - destruct fuel; [simpl in Hf; lia | destruct b; reflexivity].
  - destruct fuel; [simpl in Hf; lia | now apply parse_number_roundtrip].
  - destruct fuel; [simpl in Hf; lia | now apply parse_value_string].
  - rewrite size_arr in Hf. destruct fuel as [|f]; [lia|].
    rewrite stringify_arr.
    change (parse_value (S f) (String "[" (stringify_elems l) ++ rest))
      with (match accept "]" (stringify_elems l ++ rest) with
            | Some r => Some (JArr [], r)
            | None =>
                match parse_elements f (stringify_elems l ++ rest) with
                | Some (l, r) => Some (JArr l, r)
                | None => None
                end
            end).
    destruct l as [|x r]; [reflexivity|].
    assert (Ha : accept "]" (stringify_elems (x :: r) ++ rest) = None).
    { simpl stringify_elems. rewrite append_assoc. apply accept_value. }
    rewrite Ha, parse_elements_roundtrip; [reflexivity | | congruence | lia].
    apply serializable_arr in Hs.
    clear - IH Hs. induction IH; inversion Hs; subst; constructor; auto.
  - rewrite size_obj in Hf. destruct fuel as [|f]; [lia|].
    rewrite stringify_obj.
    change (parse_value (S f) (String "{" (stringify_members l) ++ rest))
      with (match accept "}" (stringify_members l ++ rest) with
            | Some r => Some (JObj [], r)
            | None =>
                match parse_members f (stringify_members l ++ rest) with
                | Some (l, r) => Some (mkObject l, r)
                | None => None
                end
            end).
    destruct l as [|[k x] r]; [reflexivity|].
    apply serializable_obj in Hs as [Hk Hs].
    assert (Ha : accept "}" (stringify_members ((k, x) :: r) ++ rest) = None).
    { destruct r; reflexivity. }
    rewrite Ha, parse_members_roundtrip; [| | congruence | lia].
    + now rewrite mkObject_distinct.
    + clear - IH Hs. induction IH; inversion Hs; subst; constructor; auto.
Qed.

Lemma size_le_length v : size v <= String.length (JSON_stringify v).
Proof.
  induction v as [| b | n | s | l IH | l IH] using json_induction.
  - simpl. lia.
  - destruct b; simpl; lia.
  - destruct n as [|p|p]; simpl; try lia.
    destruct (string_of_uint_start (Pos.to_uint p) "" (Unsigned.to_uint_nonnil p))
      as (c & r & E & _).
    assert (L := f_equal String.length E). rewrite length_append in L.
    simpl in L. lia.
  - simpl. lia.
  - rewrite size_arr, stringify_arr. cbn [String.length]. apply le_n_S.
    induction IH as [|x r Hx Hr IHr]; [simpl; lia|].
    change (size_elems (x :: r)) with (S (size x + size_elems r)).
    destruct r as [|y r].
    + change (stringify_elems [x]) with (JSON_stringify x ++ "]").
      rewrite length_append. simpl. lia.
    + change (stringify_elems (x :: y :: r))
        with (JSON_stringify x ++ String "," (stringify_elems (y :: r))).
      rewrite length_append. cbn [String.length]. lia.
  - rewrite size_obj, stringify_obj. cbn [String.length]. apply le_n_S.
    induction IH as [|[k x] r Hx Hr IHr]; [simpl; lia|].
    change (size_members ((k, x) :: r)) with (S (size x + size_members r)).
    simpl in Hx. destruct r as [|y r].
    + change (stringify_members [(k, x)])
        with (quoteString k ++ String ":" (JSON_stringify x ++ "}")).
      rewrite length_append. cbn [String.length]. rewrite length_append.
      simpl. lia.
    + change (stringify_members ((k, x) :: y :: r))
        with (quoteString k ++ String ":" (JSON_stringify x
              ++ String "," (stringify_members (y :: r)))).
      rewrite length_append. cbn [String.length]. rewrite length_append.
      cbn [String.length]. lia.
Qed.

Theorem JSON_parse_stringify v :
  serializable v = true -> JSON_parse (JSON_stringify v) = Ok v.
Proof.
  intros Hs. unfold JSON_parse.
  pose proof (parse_stringify v Hs (S (String.length (JSON_stringify v))) "") as H.
  assert (E : JSON_stringify v ++ "" = JSON_stringify v).
  { generalize (JSON_stringify v). intros s.
    induction s; simpl; [reflexivity | now f_equal]. }
  rewrite E in H. rewrite H; [reflexivity | | reflexivity].
  pose proof (size_le_length v). lia.
Qed.

(** ** The fuel of the parser *)

Lemma skip_ws_length s : String.length (skip_ws s) <= String.length s.
Proof.
  induction s as [|c s IH]; simpl; [lia|].
  destruct (isWs c); simpl; lia.
Qed.

Lemma accept_length c s r :
  accept c s = Some r -> String.length r < String.length s.
Proof.
  unfold accept. pose proof (skip_ws_length s) as H.
  destruct (skip_ws s) as [|c' r']; [discriminate|].
  destruct (c' =? c)%char; [|discriminate].
  intros [= <-]. simpl in H. lia.
Qed.

Lemma expect_length lit : forall s r,
  expect lit s = Some r -> String.length r <= String.length s.
Proof.
  induction lit as [|a lit IH]; intros s r; simpl.
  - intros [= <-]. lia.
  - destruct s as [|b s]; [discriminate|].
    destruct (a =? b)%char; [|discriminate].
    intros H. apply IH in H. simpl. lia.
Qed.

Lemma consChar_length c p str r (n : nat) :
  consChar c p = Some (str, r) ->
  (forall str' r', p = Some (str', r') -> String.length r' < n) ->
  String.length r < n.
Proof.
  unfold consChar. destruct c; [|discriminate].
  destruct p as [[s' r']|]; [|discriminate].
  intros [= _ <-] H. now apply (H s').
Qed.

Lemma parse_chars_length s : forall str r,
  parse_chars s = Some (str, r) -> String.length r < String.length s.
Proof.
  remember (String.length s) as n eqn:En. revert s En.
  induction n as [n IH] using lt_wf_ind. intros s En str r.
  destruct s as [|c s]; [discriminate|]. simpl in En. cbn [parse_chars].
  destruct (c =? dquote)%char.
  { intros [= _ <-]. lia. }
  destruct (c =? bslash)%char.
  - destruct s as [|e s1]; [discriminate|].
    destruct (e =? "u")%char.
    + destruct s1 as [|h1 [|h2 [|h3 [|h4 r2]]]]; try discriminate.
      intros H. eapply consChar_length; [exact H|].
      intros str' r' H'. simpl in En.
      apply (IH (String.length r2)) in H'; [lia | lia | reflexivity].
    + intros H. eapply consChar_length; [exact H|].
      intros str' r' H'. simpl in En.
      apply (IH (String.length s1)) in H'; [lia | lia | reflexivity].
  - destruct (N_of_ascii c <? 32)%N; [discriminate|].
    intros H. eapply consChar_length; [exact H|].
    intros str' r' H'.
    apply (IH (String.length s)) in H'; [lia | lia | reflexivity].
Qed.

Lemma digitOf_nb_digits c d u :
  digitOf c = Some d -> nb_digits (d u) = S (nb_digits u).
Proof.
  intros Ed.
  destruct c as [[] [] [] [] [] [] [] []]; try discriminate.
  all: injection Ed as <-.
  all: reflexivity.
Qed.

Lemma read_digits_length s : forall u r,
  read_digits s = (u, r) ->
  String.length r + nb_digits u = String.length s.
Proof.
  induction s as [|c s IH]; intros u r; simpl.
  - intros [= <- <-]. reflexivity.
  - destruct (digitOf c) as [d|] eqn:Ed.
    + destruct (read_digits s) as [u' r'] eqn:E. intros [= <- <-].
      specialize (IH u' r' eq_refl).
      pose proof (digitOf_nb_digits c d u' Ed). lia.
    + intros [= <- <-]. simpl. lia.
Qed.

Lemma parse_nat_length s n r :
  parse_nat s = Some (n, r) -> String.length r < String.length s.
Proof.
  unfold parse_nat. destruct (read_digits s) as [u r'] eqn:E.
  apply read_digits_length in E.
  destruct (uint_beq (unorm u) u) eqn:Hu; [|discriminate].
  intros [= _ <-]. destruct u; simpl in *; try lia; discriminate.
Qed.

Lemma parse_number_length s v r :
  parse_number s = Some (v, r) -> String.length r < String.length s.
Proof.
  unfold parse_number. destruct s as [|c s]; [discriminate|].
  destruct (c =? "-")%char.
  - destruct (parse_nat s) as [[n r']|] eqn:E; [|discriminate].
    intros [= _ <-]. apply parse_nat_length in E. simpl. lia.
  - destruct (parse_nat (String c s)) as [[n r']|] eqn:E; [|discriminate].
    intros [= _ <-]. now apply parse_nat_length in E.
Qed.

Lemma parse_adequate f :
  adequate parse_value f /\ adequate parse_elements f
  /\ adequate parse_members f.
Proof.
  induction f as [|f (IHv & IHe & IHm)].
  { split; [|split]; intros s v r H; discriminate. }
  split; [|split]; intros s v r H.
  - (* parse_value *)
    pose proof (skip_ws_length s) as Hw.
    destruct (skip_ws s) as [|c r0] eqn:Es; [cbn [parse_value] in H;
      rewrite Es in H; discriminate|].
    simpl in Hw.
    pose (body := fun f1 =>
          if (c =? "n")%char then option_map (pair JNull) (expect "ull" r0)
          else if (c =? "t")%char then
            option_map (pair (JBool true)) (expect "rue" r0)
          else if (c =? "f")%char then
            option_map (pair (JBool false)) (expect "alse" r0)
          else if (c =? dquote)%char then
            match parse_chars r0 with
            | Some (str, rest) => Some (JStr str, rest)
            | None => None
            end
          else if (c =? "[")%char then
            match accept "]" r0 with
            | Some rest => Some (JArr [], rest)
            | None =>
                match parse_elements f1 r0 with
                | Some (l, rest) => Some (JArr l, rest)
                | None => None
                end
            end
          else if (c =? "{")%char then
            match accept "}" r0 with
            | Some rest => Some (JObj [], rest)
            | None =>
                match parse_members f1 r0 with
                | Some (l, rest) => Some (mkObject l, rest)
                | None => None
                end
            end
          else parse_number (String c r0)).
    assert (Ev : forall f1, parse_value (S f1) s = body f1).
    { intros f1. cbn [parse_value]. now rewrite Es. }
    rewrite Ev in H.
    enough (G : String.length r < String.length s
                /\ forall f1, String.length s - String.length r <= S f1 ->
                     body f1 = Some (v, r)).
    { destruct G as [G1 G2]. split; [exact G1|].
      intros [|f1] Hf; [lia|]. rewrite Ev. now apply G2. }
    revert H. unfold body. clear body Ev.
    destruct (c =? "n")%char.
    { destruct (expect "ull" r0) as [r'|] eqn:E; [|discriminate].
      intros [= <- <-]. pose proof (expect_length _ _ _ E). split; [lia|].
      reflexivity. }
    destruct (c =? "t")%char.
    { destruct (expect "rue" r0) as [r'|] eqn:E; [|discriminate].
      intros [= <- <-]. pose proof (expect_length _ _ _ E). split; [lia|].
      reflexivity. }
    destruct (c =? "f")%char.
    { destruct (expect "alse" r0) as [r'|] eqn:E; [|discriminate].
      intros [= <- <-]. pose proof (expect_length _ _ _ E). split; [lia|].
      reflexivity. }
    destruct (c =? dquote)%char.
    { destruct (parse_chars r0) as [[str r']|] eqn:E; [|discriminate].
      intros [= <- <-]. pose proof (parse_chars_length _ _ _ E).
      split; [lia | reflexivity]. }
    destruct (c =? "[")%char.
    { destruct (accept "]" r0) as [r'|] eqn:E.
      - intros [= <- <-]. pose proof (accept_length _ _ _ E).
        split; [lia | reflexivity].
      - destruct (parse_elements f r0) as [[l r']|] eqn:E'; [|discriminate].
        intros [= <- <-]. destruct (IHe _ _ _ E') as [Hl Hmono].
        split; [lia|]. intros f1 Hf. now rewrite Hmono by lia. }
    destruct (c =? "{")%char.
    { destruct (accept "}" r0) as [r'|] eqn:E.
      - intros [= <- <-]. pose proof (accept_length _ _ _ E).
        split; [lia | reflexivity].
      - destruct (parse_members f r0) as [[l r']|] eqn:E'; [|discriminate].
        intros [= <- <-]. destruct (IHm _ _ _ E') as [Hl Hmono].
        split; [lia|]. intros f1 Hf. now rewrite Hmono by lia. }
    intros H. pose proof (parse_number_length _ _ _ H) as Hn. simpl in Hn.
    split; [lia|]. intros f1 _. exact H.
  - (* parse_elements *)
    cbn [parse_elements] in H.
    destruct (parse_value f s) as [[x r1]|] eqn:E1; [|discriminate].
    destruct (IHv _ _ _ E1) as [L1 M1].
    destruct (accept "," r1) as [r2|] eqn:E2.
    + destruct (parse_elements f r2) as [[l r3]|] eqn:E3; [|discriminate].
      injection H as <- <-. destruct (IHe _ _ _ E3) as [L3 M3].
      pose proof (accept_length _ _ _ E2) as L2. split; [lia|].
      intros [|f1] Hf; [lia|]. cbn [parse_elements].
      rewrite M1 by lia. rewrite E2. rewrite M3 by lia. reflexivity.
    + destruct (accept "]" r1) as [r2|] eqn:E3; [|discriminate].
      injection H as <- <-. pose proof (accept_length _ _ _ E3) as L3'. split; [lia|].
      intros [|f1] Hf; [lia|]. cbn [parse_elements].
      rewrite M1 by lia. now rewrite E2, E3.
  - (* parse_members *)
    cbn [parse_members] in H.
    destruct (accept dquote s) as [r0|] eqn:E0; [|discriminate].
    destruct (parse_chars r0) as [[k r1]|] eqn:Ek; [|discriminate].
    destruct (accept ":" r1) as [r2|] eqn:Ec; [|discriminate].
    destruct (parse_value f r2) as [[x r3]|] eqn:E1; [|discriminate].
    destruct (IHv _ _ _ E1) as [L1 M1].
    pose proof (accept_length _ _ _ E0) as L0. pose proof (parse_chars_length _ _ _ Ek) as Lk.
    pose proof (accept_length _ _ _ Ec) as Lc.
    destruct (accept "," r3) as [r4|] eqn:E2.
    + destruct (parse_members f r4) as [[l r5]|] eqn:E3; [|discriminate].
      injection H as <- <-. destruct (IHm _ _ _ E3) as [L3 M3].
      pose proof (accept_length _ _ _ E2) as L2. split; [lia|].
      intros [|f1] Hf; [lia|]. cbn [parse_members].
      rewrite E0, Ek, Ec. rewrite M1 by lia. rewrite E2.
      rewrite M3 by lia. reflexivity.
    + destruct (accept "}" r3) as [r4|] eqn:E3; [|discriminate].
      injection H as <- <-. pose proof (accept_length _ _ _ E3) as L3'. split; [lia|].
      intros [|f1] Hf; [lia|]. cbn [parse_members].
      rewrite E0, Ek, Ec. rewrite M1 by lia. now rewrite E2, E3.
Qed.

(** [JSON_parse] never fails for want of fuel: a text that some fuel
    parses, it parses to the same value. *)
Theorem JSON_parse_fuel fuel s v rest :
  parse_value fuel s = Some (v, rest) -> skip_ws rest = "" ->
  JSON_parse s = Ok v.
Proof.
  intros H Hr. destruct (parse_adequate fuel) as [Hv _].
  destruct (Hv s v rest H) as [_ Hm].
  unfold JSON_parse. rewrite Hm by lia. now rewrite Hr.
Qed.

(** * The envelope codec *)

Lemma decodeBody_encodeMessage message fromId :
  serializable message = true ->
  decodeBody (encodeMessage message fromId)
  = Ok (Some (message, option_map JStr fromId)).
Proof.
  intros Hs. unfold decodeBody, encodeMessage.
  rewrite JSON_parse_stringify by (destruct fromId; reflexivity).
  destruct fromId as [s|]; cbn -[JSON_parse JSON_stringify];
    now rewrite JSON_parse_stringify.
Qed.

(** C1. Decoding the text that [encodeMessage] makes of a serialisable
    message and an optional sender identifier gives back that message and
    that identifier. *)
Theorem codec_round_trip message fromId :
  serializable message = true ->
  decodeMessage (encodeMessage message fromId)
  = Some (message, option_map JStr fromId).
Proof.
  intros Hs. unfold decodeMessage. now rewrite decodeBody_encodeMessage.
Qed.

Lemma codec_round_trip_witness :
  serializable (JObj [("type", JStr "ping"); ("n", JArr [JNum 0; JNull])]) = true
  /\ decodeMessage
       (encodeMessage (JObj [("type", JStr "ping"); ("n", JArr [JNum 0; JNull])])
          (Some "frame-1"))
     = Some (JObj [("type", JStr "ping"); ("n", JArr [JNum 0; JNull])],
             Some (JStr "frame-1")).
Proof.
  split; [reflexivity | apply (codec_round_trip _ (Some "frame-1")); reflexivity].
Defined.

(** C2. On a text that is not a JSON object with the marker property set
    to [true] (a text that does not parse, a value that is not an object,
    an object without the marker or with another value for it) the body of
    [decodeMessage] returns [undefined] or throws, and [decodeMessage]
    returns [undefined] either way. *)
Theorem decode_absent_without_marker raw :
  markerTagged raw = false ->
  decodeMessage raw = None
  /\ (decodeBody raw = Ok None \/ exists e, decodeBody raw = Throw e).
Proof.
  unfold markerTagged, decodeMessage, decodeBody. intros H.
  destruct (JSON_parse raw) as [v|e]; cbn [bind tryCatch].
  - destruct v as [| b | n | s | l | l]; cbn [hasProp bind tryCatch getProp];
      try (split; [reflexivity | right; eexists; reflexivity]).
    + split; [reflexivity | left; reflexivity].
    + rewrite H, andb_false_r. split; [reflexivity | left; reflexivity].
  - split; [reflexivity | right; eexists; reflexivity].
Qed.

Lemma decode_absent_without_marker_witness :
  markerTagged "{ }" = false
  /\ decodeMessage "{ }" = None
  /\ (decodeBody "{ }" = Ok None \/ exists e, decodeBody "{ }" = Throw e).
Proof.
  split; [reflexivity | apply (decode_absent_without_marker "{ }"); reflexivity].
Defined.

(** Traffic of other senders on the same channel, and packets as a
    sender other than this hook can make them. *)
Example decode_foreign_traffic :
  decodeMessage "hello" = None
  /\ decodeMessage "42" = None
  /\ decodeMessage "[1,2]" = None
  /\ decodeMessage "{}" = None
  /\ decodeMessage
       (JSON_stringify (JObj [("payload", JStr "1"); (packetId, JBool false)]))
     = None
  /\ decodeMessage
       (JSON_stringify (JObj [("payload", JStr "1"); (packetId, JNum 1)]))
     = None
  /\ decodeMessage
       (JSON_stringify (JObj [("payload", JStr "{"); (packetId, JBool true)]))
     = None
  /\ decodeMessage
       (JSON_stringify (JObj [("payload", JNum 5); (packetId, JBool true)]))
     = Some (JNum 5, None).
Proof. repeat split; reflexivity. Qed.

Local Open Scope list_scope.

(** * The hook as a transition system *)

Lemma run_app env es1 es2 h :
  run env (es1 ++ es2) h = run env es2 (run env es1 h).
Proof. apply fold_left_app. Qed.

Lemma run_invariant (I : Hook -> Prop) env es :
  (forall h e, In e es -> I h -> I (step env h e)) ->
  forall h, I h -> I (run env es h).
Proof.
  induction es as [|e es IH]; intros Hstep h Hh; simpl; [assumption|].
  apply IH.
  - intros h' e' He'. apply Hstep. now right.
  - apply Hstep; [now left | assumption].
Qed.

Lemma applyUpdates_app us vs s :
  applyUpdates (us ++ vs) s = applyUpdates vs (applyUpdates us s).
Proof. apply fold_left_app. Qed.

Lemma dispatchAll_fields rs : forall h,
  dispatchAll rs h
  = {| state := state h;
       updates := updates h ++ map SetQueueAppend rs;
       due := due h; savedHandler := savedHandler h; thrown := thrown h;
       outbox := outbox h; delivered := delivered h;
       submitted := submitted h ++ rs; transmitted := transmitted h |}.
Proof.
  induction rs as [|r rs IH]; intros h; simpl.
  - rewrite !List.app_nil_r. now destruct h.
  - unfold dispatchAll in IH. rewrite IH. simpl.
    now rewrite <- !List.app_assoc.
Qed.

Lemma deliver_fields env m h :
  deliver env m h
  = {| state := state h;
       updates := updates h ++ map SetQueueAppend (handleMessage env m);
       due := due h; savedHandler := savedHandler h; thrown := thrown h;
       outbox := outbox h; delivered := delivered h ++ [m];
       submitted := submitted h ++ handleMessage env m;
       transmitted := transmitted h |}.
Proof.
  unfold deliver. fold (dispatchAll (handleMessage env m) (logDelivered m h)).
  now rewrite dispatchAll_fields.
Qed.

Lemma isChild_parent env : isParent env = true -> isChild env = false.
Proof. unfold isChild. now intros ->. Qed.

(** ** Gating *)

Lemma applyUpdates_childId us : forall s,
  existsb setsChildId us = false ->
  childId (applyUpdates us s) = childId s.
Proof.
  induction us as [|u us IH]; intros s H; simpl in *; [reflexivity|].
  apply orb_false_iff in H as [Hu Hus].
  unfold applyUpdates in IH. rewrite IH by assumption.
  now destruct u.
Qed.

Lemma existsb_snoc {A} (f : A -> bool) l x :
  existsb f (l ++ [x]) = existsb f l || f x.
Proof. rewrite existsb_app. simpl. now rewrite orb_false_r. Qed.

Lemma existsb_appends f rs :
  (forall m, f (SetQueueAppend m) = false) ->
  existsb f (map SetQueueAppend rs) = false.
Proof.
  intros Hf. induction rs as [|r rs IH]; simpl; [reflexivity|].
  now rewrite Hf, IH.
Qed.

Lemma drainEffect_gated env h :
  isParent env = true -> childId (state h) = None -> drainEffect env h = h.
Proof.
  intros Hp Hc. unfold drainEffect, isChildMounted. rewrite Hp, Hc.
  destruct (queue (state h)); [reflexivity|]. now rewrite andb_false_r.
Qed.

Lemma childMountEffect_parent env h :
  isParent env = true -> childMountEffect env h = h.
Proof.
  intros Hp. unfold childMountEffect. now rewrite isChild_parent.
Qed.

Lemma runEffects_pendingParent env h :
  isParent env = true -> pendingParent h -> pendingParent (runEffects env h).
Proof.
  intros Hp (Ho & Ht & Hc & Hu). unfold runEffects.
  destruct (due h) as [| |drain]; [repeat split; assumption | |].
  - rewrite childMountEffect_parent by assumption.
    rewrite drainEffect_gated by assumption.
    repeat split; simpl; try assumption.
    now rewrite existsb_snoc, Hu.
  - assert (E : (if drain then drainEffect env h else h) = h).
    { destruct drain; [now apply drainEffect_gated | reflexivity]. }
    rewrite E. repeat split; assumption.
Qed.

Lemma render_pendingParent env h :
  isParent env = true -> pendingParent h -> pendingParent (render env h).
Proof.
  intros Hp Hh. apply (runEffects_pendingParent env h Hp) in Hh.
  destruct Hh as (Ho & Ht & Hc & Hu). unfold render.
  match goal with |- pendingParent (if ?b then _ else _) => destruct b end.
  - repeat split; assumption.
  - repeat split; simpl; try assumption.
    now rewrite applyUpdates_childId.
Qed.

Lemma handlePrivateMessage_not_mounted id m h :
  isMounted (getProp "type" m) = false -> handlePrivateMessage id m h = h.
Proof. unfold handlePrivateMessage. now intros ->. Qed.

Lemma step_pendingParent env h e :
  isParent env = true -> notMounted e = true ->
  pendingParent h -> pendingParent (step env h e).
Proof.
  intros Hp He Hh. unfold step. destruct (thrown h); [assumption|].
  destruct e as [m| | |raw].
  - destruct Hh as (Ho & Ht & Hc & Hu). repeat split; simpl; try assumption.
    now rewrite existsb_snoc, Hu.
  - now apply runEffects_pendingParent.
  - now apply render_pendingParent.
  - destruct (savedHandler h) as [id|]; [|assumption].
    unfold eventListener. simpl in He.
    destruct (decodeMessage raw) as [[m fromId]|]; [|assumption].
    destruct (truthy m); [|assumption].
    destruct (isPrivateMessage m) as [[|]|err]; cbn [bind]; try assumption.
    + rewrite handlePrivateMessage_not_mounted; [assumption|].
      now apply negb_true_iff.
    + rewrite Hp. destruct (sameId id fromId); [|assumption].
      rewrite deliver_fields. destruct Hh as (Ho & Ht & Hc & Hu).
      repeat split; simpl; try assumption.
      rewrite existsb_app, Hu. now apply existsb_appends.
Qed.

(** C3. A parent that no [mounted] packet has reached is still pending
    and has posted nothing on the channel, whatever was submitted to it
    and however often it rendered. *)
Theorem pre_handshake_gating env es :
  isParent env = true ->
  forallb notMounted es = true ->
  outbox (run env es mount) = []
  /\ transmitted (run env es mount) = []
  /\ isChildMounted (state (run env es mount)) = false.
Proof.
  intros Hp Hes.
  assert (H : pendingParent (run env es mount)).
  { apply run_invariant.
    - intros h e He. apply step_pendingParent; [assumption|].
      rewrite forallb_forall in Hes. now apply Hes.
    - repeat split. }
  destruct H as (Ho & Ht & Hc & _). unfold isChildMounted. now rewrite Hc.
Qed.

Lemma pre_handshake_gating_witness :
  outbox (run parentA
            [Effects; Dispatch ping; Dispatch (JNum 1); Render; Effects;
             Message (encodeMessage ping (Some "A")); Dispatch (JStr "x");
             Render; Effects; Render; Effects] mount) = []
  /\ pendingQueue (run parentA
                     [Effects; Dispatch ping; Dispatch (JNum 1); Render;
                      Effects; Message (encodeMessage ping (Some "A"));
                      Dispatch (JStr "x"); Render; Effects; Render; Effects]
                     mount)
     = [ping; JNum 1; JStr "x"].
Proof.
  split; [|reflexivity].
  exact (proj1 (pre_handshake_gating parentA
                  [Effects; Dispatch ping; Dispatch (JNum 1); Render; Effects;
                   Message (encodeMessage ping (Some "A")); Dispatch (JStr "x");
                   Render; Effects; Render; Effects] eq_refl eq_refl)).
Defined.

(** ** The queue *)

Lemma pendingQueue_setState u h :
  pendingQueue (setState u h)
  = queue (applyUpdate (applyUpdates (updates h) (state h)) u).
Proof. unfold pendingQueue. simpl. now rewrite applyUpdates_app. Qed.

Lemma queue_appends rs : forall s,
  queue (applyUpdates (map SetQueueAppend rs) s) = queue s ++ rs.
Proof.
  induction rs as [|r rs IH]; intros s; simpl.
  - now rewrite List.app_nil_r.
  - unfold applyUpdates in IH. rewrite IH. simpl. now rewrite <- List.app_assoc.
Qed.

Lemma queue_head_kept us : forall s m q,
  existsb isSlice us = false -> queue s = m :: q ->
  exists q', queue (applyUpdates us s) = m :: q'.
Proof.
  induction us as [|u us IH]; intros s m q Hs Hq; simpl in *.
  - now exists q.
  - apply orb_false_iff in Hs as [Hu Hus].
    destruct u; try discriminate; simpl;
      (eapply IH; [assumption | simpl; try rewrite Hq; reflexivity]).
Qed.

Lemma drainEffect_conserves env h :
  existsb isSlice (updates h) = false ->
  transmitted h ++ pendingQueue h = submitted h ->
  transmitted (drainEffect env h) ++ pendingQueue (drainEffect env h)
  = submitted (drainEffect env h).
Proof.
  intros Hs Hc. unfold drainEffect.
  destruct (queue (state h)) as [|m q] eqn:Hq; [assumption|].
  assert (Hfire :
    transmitted (logPosted m (postMessage env (state h) m) (setState SetQueueSlice h))
    ++ pendingQueue (logPosted m (postMessage env (state h) m) (setState SetQueueSlice h))
    = submitted (logPosted m (postMessage env (state h) m) (setState SetQueueSlice h))).
  { destruct (queue_head_kept (updates h) (state h) m q Hs Hq) as [q' Hq'].
    unfold pendingQueue in *. simpl. rewrite applyUpdates_app. simpl.
    rewrite Hq' in *. simpl. now rewrite <- List.app_assoc. }
  destruct (isParent env).
  - destruct (truthy m && isChildMounted (state h)); [exact Hfire | exact Hc].
  - destruct (isChild env); [|exact Hc].
    destruct (truthy m); [exact Hfire | exact Hc].
Qed.

Lemma drainEffect_due env h : due (drainEffect env h) = due h.
Proof.
  unfold drainEffect. destruct (queue (state h)); [reflexivity|].
  destruct (isParent env).
  - now destruct (truthy j && isChildMounted (state h)).
  - destruct (isChild env); [|reflexivity]. now destruct (truthy j).
Qed.

Lemma childMountEffect_conserves env h :
  transmitted h ++ pendingQueue h = submitted h ->
  transmitted (childMountEffect env h) ++ pendingQueue (childMountEffect env h)
  = submitted (childMountEffect env h).
Proof.
  intros Hc. unfold childMountEffect.
  destruct (isChild env); [|assumption].
  destruct (ownFrame env) as [f|]; [|assumption].
  unfold pendingQueue in *. simpl. rewrite !applyUpdates_app. simpl.
  now rewrite List.app_assoc, Hc.
Qed.

Lemma runEffects_conserves env h : conserves h -> conserves (runEffects env h).
Proof.
  intros [Hc Hs]. unfold runEffects.
  destruct (due h) as [| |drain] eqn:Hd; [split; [assumption | now left] | |].
  - destruct Hs as [Hs|Hs]; [discriminate|].
    split; [|now left].
    change (transmitted (childMountEffect env
              (saveHandler (drainEffect env (iframeIdEffect env h))))
            ++ pendingQueue (childMountEffect env
              (saveHandler (drainEffect env (iframeIdEffect env h))))
            = submitted (childMountEffect env
              (saveHandler (drainEffect env (iframeIdEffect env h))))).
    apply childMountEffect_conserves.
    change (transmitted (drainEffect env (iframeIdEffect env h))
            ++ pendingQueue (drainEffect env (iframeIdEffect env h))
            = submitted (drainEffect env (iframeIdEffect env h))).
    apply drainEffect_conserves.
    + simpl. now rewrite existsb_snoc, Hs.
    + unfold pendingQueue in *. simpl. now rewrite applyUpdates_app.
  - destruct Hs as [Hs|Hs]; [discriminate|].
    split; [|now left].
    destruct drain; [|assumption].
    change (transmitted (drainEffect env h) ++ pendingQueue (drainEffect env h)
            = submitted (drainEffect env h)).
    now apply drainEffect_conserves.
Qed.

Lemma render_conserves env h : conserves h -> conserves (render env h).
Proof.
  intros Hh. apply (runEffects_conserves env) in Hh. destruct Hh as [Hc Hs].
  unfold render.
  match goal with |- conserves (if ?b then _ else _) => destruct b end.
  - split; assumption.
  - split; [assumption | now right].
Qed.

Lemma step_conserves env h e : conserves h -> conserves (step env h e).
Proof.
  intros Hh. unfold step. destruct (thrown h); [assumption|].
  destruct e as [m| | |raw].
  - destruct Hh as [Hc Hs]. split.
    + unfold pendingQueue in *. simpl. rewrite applyUpdates_app. simpl.
      now rewrite List.app_assoc, Hc.
    + destruct Hs as [Hs|Hs]; [now left | right].
      simpl. now rewrite existsb_snoc, Hs.
  - now apply runEffects_conserves.
  - now apply render_conserves.
  - destruct (savedHandler h) as [id|]; [|assumption].
    unfold eventListener.
    destruct (decodeMessage raw) as [[m fromId]|]; [|assumption].
    destruct (truthy m); [|assumption].
    assert (Hd : conserves (deliver env m h)).
    { rewrite deliver_fields. destruct Hh as [Hc Hs]. split.
      - unfold pendingQueue in *. simpl. rewrite applyUpdates_app, queue_appends.
        now rewrite List.app_assoc, Hc.
      - destruct Hs as [Hs|Hs]; [now left | right]. simpl.
        rewrite existsb_app, Hs. now apply existsb_appends. }
    destruct (isPrivateMessage m) as [[|]|err]; cbn [bind]; try assumption.
    + unfold handlePrivateMessage.
      destruct (isMounted (getProp "type" m)); [|assumption].
      destruct (sameId id (getProp "id" m)); [|assumption].
      destruct Hh as [Hc Hs]. split.
      * unfold pendingQueue in *. simpl. now rewrite applyUpdates_app.
      * destruct Hs as [Hs|Hs]; [now left | right].
        simpl. now rewrite existsb_snoc, Hs.
    + destruct (isParent env).
      * destruct (sameId id fromId); assumption.
      * destruct (isChild env); assumption.
Qed.

(** Whatever the events, what was handed to [postMessage] and what is
    still queued make up what was submitted, in the order of submission. *)
Lemma run_conserves env es :
  transmitted (run env es mount) ++ pendingQueue (run env es mount)
  = submitted (run env es mount).
Proof.
  assert (H : conserves (run env es mount)).
  { apply run_invariant.
    - intros h e _. apply step_conserves.
    - split; [reflexivity | now right]. }
  now destruct H.
Qed.


Lemma existsb_of_forallb {A} (f : A -> bool) l :
  l <> [] -> forallb f l = true -> existsb f l = true.
Proof.
  destruct l as [|x l]; [congruence|]. simpl. intros _ H.
  apply andb_true_iff in H as [-> _]. reflexivity.
Qed.

Lemma sameOpt_refl a : sameOpt a a = true.
Proof. destruct a; simpl; [apply String.eqb_refl | reflexivity]. Qed.

Lemma postMessage_childId env s s' m :
  childId s = childId s' -> postMessage env s m = postMessage env s' m.
Proof. unfold postMessage. now intros ->. Qed.

Lemma flat_map_postMessage env s s' l :
  childId s = childId s' ->
  flat_map (postMessage env s) l = flat_map (postMessage env s') l.
Proof.
  intros H. induction l as [|x l IH]; simpl; [reflexivity|].
  now rewrite IH, (postMessage_childId env s s').
Qed.

(** One drain cycle of a link whose gate is open: the head of the queue,
    and nothing else, goes to [postMessage] and leaves the queue. *)
Lemma one_cycle env h m q :
  thrown h = false -> due h = NoEffects ->
  pendingQueue h = m :: q -> truthy m = true ->
  drains env (applyUpdates (updates h) (state h)) = true ->
  identified env (applyUpdates (updates h) (state h)) = true ->
  rendersDrain h = true ->
  let h' := run env [Render; Effects] h in
  thrown h' = false /\ due h' = NoEffects
  /\ updates h' = [SetQueueSlice]
  /\ state h' = applyUpdates (updates h) (state h)
  /\ transmitted h' = transmitted h ++ [m]
  /\ outbox h'
     = outbox h ++ postMessage env (applyUpdates (updates h) (state h)) m
  /\ submitted h' = submitted h.
Proof.
  intros Ht Hd Hq Hm Hg Hi Hr0.
  unfold pendingQueue in Hq. unfold rendersDrain in Hr0.
  remember (applyUpdates (updates h) (state h)) as s eqn:Es.
  assert (Hr : render env h = commit s (UpdateEffects true) h).
  { unfold render, runEffects. rewrite Hd. cbv zeta. rewrite <- Es.
    unfold identified in Hi. apply negb_true_iff in Hi.
    now rewrite Hi, Hr0. }
  assert (Hf : drainEffect env (commit s (UpdateEffects true) h)
               = logPosted m (postMessage env s m)
                   (setState SetQueueSlice (commit s (UpdateEffects true) h))).
  { unfold drainEffect. cbn [state commit]. rewrite Hq, Hm.
    unfold drains in Hg. destruct (isParent env); now rewrite Hg. }
  assert (E : run env [Render; Effects] h
              = setDue NoEffects
                  (saveHandler
                     (logPosted m (postMessage env s m)
                        (setState SetQueueSlice
                           (commit s (UpdateEffects true) h))))).
  { unfold run. cbn [fold_left]. unfold step at 2. rewrite Ht, Hr.
    unfold step. cbn [thrown commit]. rewrite Ht.
    unfold runEffects. cbn [due commit]. now rewrite Hf. }
  cbv zeta. rewrite E. cbn. repeat split; assumption.
Qed.

Lemma cycles_S k : cycles (S k) = [Render; Effects] ++ cycles k.
Proof. reflexivity. Qed.

Lemma drains_childId env s s' :
  childId s = childId s' -> drains env s = drains env s'.
Proof. unfold drains, isChildMounted. now intros ->. Qed.

Lemma identified_iframeId env s s' :
  iframeId s = iframeId s' -> identified env s = identified env s'.
Proof. unfold identified. now intros ->. Qed.

Lemma k_cycles env k : forall h ms,
  thrown h = false -> due h = NoEffects ->
  pendingQueue h = ms -> forallb truthy ms = true ->
  drains env (applyUpdates (updates h) (state h)) = true ->
  identified env (applyUpdates (updates h) (state h)) = true ->
  (ms <> [] -> rendersDrain h = true) ->
  k <= List.length ms ->
  let h' := run env (cycles k) h in
  transmitted h' = transmitted h ++ firstn k ms
  /\ outbox h'
     = outbox h
       ++ flat_map (postMessage env (applyUpdates (updates h) (state h)))
            (firstn k ms)
  /\ pendingQueue h' = skipn k ms
  /\ submitted h' = submitted h.
Proof.
  induction k as [|k IH]; intros h ms Ht Hd Hq Hm Hg Hi Hr Hk; cbv zeta.
  - simpl. rewrite !List.app_nil_r. repeat split. assumption.
  - destruct ms as [|m q]; [simpl in Hk; lia|].
    simpl in Hm. apply andb_true_iff in Hm as [Hm Hms].
    rewrite cycles_S, run_app.
    destruct (one_cycle env h m q Ht Hd Hq Hm Hg Hi (Hr ltac:(discriminate)))
      as (Ht1 & Hd1 & Hu1 & Hs1 & Htr & Hout & Hsub).
    set (s := applyUpdates (updates h) (state h)) in *.
    set (h1 := run env [Render; Effects] h) in *.
    assert (Ea : applyUpdates (updates h1) (state h1)
                 = applyUpdate s SetQueueSlice).
    { now rewrite Hu1, Hs1. }
    destruct (IH h1 q Ht1 Hd1) as (A & B & C & D).
    + unfold pendingQueue. rewrite Ea. simpl. unfold pendingQueue in Hq.
      fold s in Hq. now rewrite Hq.
    + assumption.
    + rewrite Ea. now rewrite (drains_childId env _ s).
    + rewrite Ea. now rewrite (identified_iframeId env _ s).
    + intros _. unfold rendersDrain. now rewrite Hu1.
    + simpl in Hk. lia.
    + rewrite A, B, C, D, Htr, Hout, Hsub. simpl.
      rewrite <- !List.app_assoc. repeat split.
      f_equal. f_equal. rewrite Ea. now apply flat_map_postMessage.
Qed.

Lemma drainEffect_headReady env h :
  headReady env (state h) = true ->
  drainEffect env h
  = match queue (state h) with
    | m :: _ => logPosted m (postMessage env (state h) m)
                  (setState SetQueueSlice h)
    | [] => h
    end.
Proof.
  unfold headReady, drainEffect, drains.
  destruct (queue (state h)) as [|m q]; [discriminate|]. intros H.
  apply andb_true_iff in H as [Hm Hg]. rewrite Hm.
  destruct (isParent env); now rewrite Hg.
Qed.

Lemma drainEffect_slice env h :
  headReady env (state h) = true ->
  existsb isSlice (updates (drainEffect env h)) = true.
Proof.
  intros H. rewrite (drainEffect_headReady env h H).
  unfold headReady in H. destruct (queue (state h)); [discriminate|].
  simpl. rewrite existsb_snoc. simpl. now rewrite orb_true_r.
Qed.

Lemma drainEffect_state env h : state (drainEffect env h) = state h.
Proof.
  unfold drainEffect. destruct (queue (state h)); [reflexivity|].
  destruct (isParent env).
  - now destruct (truthy j && isChildMounted (state h)).
  - destruct (isChild env); [|reflexivity]. now destruct (truthy j).
Qed.

Lemma drainEffect_thrown env h : thrown (drainEffect env h) = thrown h.
Proof.
  unfold drainEffect. destruct (queue (state h)); [reflexivity|].
  destruct (isParent env).
  - now destruct (truthy j && isChildMounted (state h)).
  - destruct (isChild env); [|reflexivity]. now destruct (truthy j).
Qed.

Lemma childMountEffect_updates env h :
  exists us, updates (childMountEffect env h) = updates h ++ us.
Proof.
  unfold childMountEffect. destruct (isChild env).
  - destruct (ownFrame env).
    + eexists. simpl. rewrite <- List.app_assoc. reflexivity.
    + exists []. now rewrite List.app_nil_r.
  - exists []. now rewrite List.app_nil_r.
Qed.

Lemma childMountEffect_state env h :
  state (childMountEffect env h) = state h
  /\ thrown (childMountEffect env h) = thrown h.
Proof.
  unfold childMountEffect. destruct (isChild env); [|now split].
  destruct (ownFrame env); now split.
Qed.

Lemma runEffects_due env h : due (runEffects env h) = NoEffects.
Proof.
  unfold runEffects. destruct (due h) eqn:E; [assumption | reflexivity ..].
Qed.

Lemma runEffects_state env h :
  state (runEffects env h) = state h /\ thrown (runEffects env h) = thrown h.
Proof.
  unfold runEffects. destruct (due h) as [| |d]; [now split | |].
  - cbn [state thrown setDue].
    destruct (childMountEffect_state env
                (saveHandler (drainEffect env (iframeIdEffect env h))))
      as [-> ->].
    cbn [state thrown saveHandler].
    now rewrite drainEffect_state, drainEffect_thrown.
  - cbn [state thrown setDue saveHandler].
    destruct d; [now rewrite drainEffect_state, drainEffect_thrown | now split].
Qed.

Lemma runEffects_sliceQueued env h :
  sliceQueued env h -> sliceQueued env (runEffects env h).
Proof.
  intros HL Ht _ Hr.
  destruct (runEffects_state env h) as [Es Et]. rewrite Es in Hr.
  rewrite Et in Ht. unfold runEffects.
  destruct (due h) as [| |d] eqn:Hd.
  - apply HL; [assumption | now left | assumption].
  - cbn [updates setDue].
    destruct (childMountEffect_updates env
                (saveHandler (drainEffect env (iframeIdEffect env h))))
      as [us ->].
    rewrite existsb_app. cbn [updates saveHandler].
    now rewrite (drainEffect_slice env (iframeIdEffect env h)).
  - cbn [updates setDue saveHandler]. destruct d.
    + now apply drainEffect_slice.
    + apply HL; [assumption | now right | assumption].
Qed.

Lemma queue_untouched us : forall s,
  existsb touchesQueue us = false -> queue (applyUpdates us s) = queue s.
Proof.
  induction us as [|u us IH]; intros s H; [reflexivity|].
  simpl in H. apply orb_false_iff in H as [Hu Hus].
  change (applyUpdates (u :: us) s) with (applyUpdates us (applyUpdate s u)).
  rewrite IH by assumption. now destruct u.
Qed.

Lemma slice_touches us :
  existsb isSlice us = true -> existsb touchesQueue us = true.
Proof.
  induction us as [|u us IH]; simpl; [discriminate|].
  intros H. apply orb_true_iff in H as [H|H].
  - destruct u; try discriminate. reflexivity.
  - rewrite (IH H). now rewrite orb_true_r.
Qed.

Lemma sameOpt_eq a b : sameOpt a b = true -> a = b.
Proof.
  destruct a, b; simpl; try discriminate; [|reflexivity].
  intros H. apply String.eqb_eq in H. now subst.
Qed.

Lemma headReady_same env s s' :
  queue s = queue s' -> childId s = childId s' ->
  headReady env s = headReady env s'.
Proof.
  intros Hq Hc. unfold headReady. rewrite Hq.
  now rewrite (drains_childId env s s').
Qed.

Lemma render_sliceQueued env h :
  sliceQueued env h -> sliceQueued env (render env h).
Proof.
  intros HL. apply (runEffects_sliceQueued env) in HL.
  pose proof (runEffects_due env h) as Hd.
  unfold render. set (h1 := runEffects env h) in *.
  match goal with |- sliceQueued env (if ?b then _ else _) => destruct b end.
  - intros Ht. discriminate.
  - intros Ht Hdue Hr. cbn [thrown commit] in Ht. cbn [due commit] in Hdue.
    cbn [state commit] in Hr. exfalso.
    destruct Hdue as [Hdue|Hdue]; [discriminate|].
    injection Hdue as Hflag. apply orb_false_iff in Hflag as [Hq Hc].
    apply negb_false_iff, sameOpt_eq in Hc.
    rewrite (headReady_same env _ (state h1)) in Hr;
      [| now apply queue_untouched | assumption].
    specialize (HL Ht (or_introl Hd) Hr).
    apply slice_touches in HL. congruence.
Qed.

Lemma extends_refl h : extends h h.
Proof. exists []. now rewrite List.app_nil_r. Qed.

Lemma eventListener_extends env id raw h h' :
  eventListener env id raw h = Ok h' -> extends h h'.
Proof.
  unfold eventListener.
  destruct (decodeMessage raw) as [[m fromId]|];
    [|intros [= <-]; apply extends_refl].
  destruct (truthy m); [|intros [= <-]; apply extends_refl].
  assert (Hd : extends h (deliver env m h)).
  { rewrite deliver_fields. eexists. simpl. repeat split. }
  destruct (isPrivateMessage m) as [[|]|e]; cbn [bind]; [| |discriminate].
  - unfold handlePrivateMessage.
    destruct (isMounted (getProp "type" m));
      [|intros [= <-]; apply extends_refl].
    destruct (sameId id (getProp "id" m));
      intros [= <-]; [|apply extends_refl].
    eexists. simpl. repeat split.
  - destruct (isParent env).
    + destruct (sameId id fromId); intros [= <-];
        [exact Hd | apply extends_refl].
    + destruct (isChild env); intros [= <-]; [exact Hd | apply extends_refl].
Qed.

Lemma message_keeps env h raw : extends h (step env h (Message raw)).
Proof.
  unfold step. destruct (thrown h); [apply extends_refl|].
  destruct (savedHandler h) as [id|]; [|apply extends_refl].
  destruct (eventListener env id raw h) as [h'|e] eqn:E;
    [|apply extends_refl].
  now apply (eventListener_extends env id raw).
Qed.

Lemma step_sliceQueued env h e :
  sliceQueued env h -> sliceQueued env (step env h e).
Proof.
  intros HL. destruct e as [m| | |raw].
  - unfold step. destruct (thrown h) eqn:Ht; [exact HL|].
    intros _ Hd Hr. simpl. rewrite existsb_app.
    now rewrite (HL Ht Hd Hr).
  - unfold step. destruct (thrown h); [exact HL|].
    now apply runEffects_sliceQueued.
  - unfold step. destruct (thrown h); [exact HL|].
    now apply render_sliceQueued.
  - destruct (message_keeps env h raw) as (us & Eu & Es & Ed & Et).
    intros Ht Hd Hr. rewrite Eu, existsb_app.
    rewrite Et in Ht. rewrite Ed in Hd. rewrite Es in Hr.
    now rewrite (HL Ht Hd Hr).
Qed.

Lemma run_sliceQueued env es : sliceQueued env (run env es mount).
Proof.
  apply run_invariant.
  - intros h e _. apply step_sliceQueued.
  - intros _ [H|H]; discriminate.
Qed.

(** In a state the hook can reach, the next render leaves the drain
    effect to run when the gate is open for the messages that wait. *)
Lemma reachable_rendersDrain env es m q :
  let h := run env es mount in
  thrown h = false -> due h = NoEffects ->
  pendingQueue h = m :: q -> truthy m = true ->
  drains env (applyUpdates (updates h) (state h)) = true ->
  rendersDrain h = true.
Proof.
  cbv zeta. intros Ht Hd Hq Hm Hg.
  pose proof (run_sliceQueued env es) as HL.
  set (h := run env es mount) in *. unfold rendersDrain.
  destruct (existsb touchesQueue (updates h)) eqn:Hu; [reflexivity|].
  destruct (sameOpt (childId (applyUpdates (updates h) (state h)))
              (childId (state h))) eqn:Hc; [|reflexivity].
  exfalso. apply sameOpt_eq in Hc.
  unfold pendingQueue in Hq. rewrite queue_untouched in Hq by assumption.
  rewrite (drains_childId env _ (state h) Hc) in Hg.
  assert (Hr : headReady env (state h) = true).
  { unfold headReady. now rewrite Hq, Hm, Hg. }
  specialize (HL Ht (or_introl Hd) Hr). apply slice_touches in HL. congruence.
Qed.


Lemma postMessage_hasWindow env s m :
  hasWindow env = true ->
  map data (postMessage env s m) = [encodeMessage m (senderId env s)].
Proof.
  unfold hasWindow, postMessage, senderId. destruct (isParent env).
  - destruct (current env) as [f|]; [|discriminate]. now intros ->.
  - now intros ->.
Qed.

Lemma posted_hasWindow env s l :
  hasWindow env = true ->
  map data (flat_map (postMessage env s) l)
  = map (fun m => encodeMessage m (senderId env s)) l.
Proof.
  intros Hw. induction l as [|x l IH]; [reflexivity|].
  simpl. rewrite List.map_app, IH, postMessage_hasWindow by assumption.
  reflexivity.
Qed.


(** C4, amended. In every state the hook can reach, when the gate is
    open the drain hands the queued messages, when they are truthy, to
    [postMessage] in the order of submission, one for each cycle, and
    [postMessage] posts one packet for each when the target window is
    there; and whatever the events and the messages, what was handed over
    and what is still queued make up what was submitted, in that order. *)
Theorem queue_fifo env es ms k :
  thrown (run env es mount) = false ->
  due (run env es mount) = NoEffects ->
  pendingQueue (run env es mount) = ms ->
  forallb truthy ms = true ->
  drains env (applyUpdates (updates (run env es mount))
                (state (run env es mount))) = true ->
  identified env (applyUpdates (updates (run env es mount))
                    (state (run env es mount))) = true ->
  k <= List.length ms ->
  let h := run env es mount in
  let h' := run env (cycles k) h in
  let s := applyUpdates (updates h) (state h) in
  transmitted h' = transmitted h ++ firstn k ms
  /\ outbox h' = outbox h ++ flat_map (postMessage env s) (firstn k ms)
  /\ pendingQueue h' = skipn k ms
  /\ (hasWindow env = true ->
      map data (outbox h')
      = map data (outbox h)
        ++ map (fun m => encodeMessage m (senderId env s)) (firstn k ms))
  /\ (forall es',
        transmitted (run env es' mount) ++ pendingQueue (run env es' mount)
        = submitted (run env es' mount)).
Proof.
  intros Ht Hd Hq Hm Hg Hi Hk. cbv zeta.
  destruct (k_cycles env k (run env es mount) ms Ht Hd Hq Hm Hg Hi)
    as (A & B & C & _); [|assumption|].
  - destruct ms as [|m q]; [congruence|]. intros _.
    simpl in Hm. apply andb_true_iff in Hm as [Hm _].
    now apply (reachable_rendersDrain env es m q).
  - repeat split; try assumption.
    + intros Hw. rewrite B, List.map_app. f_equal. now apply posted_hasWindow.
    + apply run_conserves.
Qed.

Lemma queue_fifo_witness :
  outbox waitingA = []
  /\ map data (outbox (run parentA (cycles 2) waitingA))
     = map (fun m => encodeMessage m None) [ping; JNum 1].
Proof.
  split; [reflexivity|].
  pose proof (queue_fifo parentA
                ([Effects; Render; Effects]
                 ++ map Dispatch [ping; JNum 1]
                 ++ [Render; Effects;
                     Message (encodeMessage (mountedMessage "A") (Some "A"))])
                [ping; JNum 1] 2
                eq_refl eq_refl eq_refl eq_refl eq_refl eq_refl
                (le_n 2)) as (_ & _ & _ & H & _).
  exact (H eq_refl).
Defined.

(** A falsy message at the head of the queue is never taken off it, and
    the messages behind it wait with it. *)
Lemma stalled_queue k :
  run parentA (cycles k)
    (run parentA (map Dispatch [JNum 0; ping] ++ cycles 1) establishedA)
  = run parentA (map Dispatch [JNum 0; ping] ++ cycles 1) establishedA.
Proof.
  induction k as [|k IH]; [reflexivity|].
  rewrite cycles_S, run_app.
  replace (run parentA [Render; Effects]
             (run parentA (map Dispatch [JNum 0; ping] ++ cycles 1) establishedA))
    with (run parentA (map Dispatch [JNum 0; ping] ++ cycles 1) establishedA)
    by (vm_compute; reflexivity).
  exact IH.
Qed.

(** Without a content window [postMessage] posts nothing, and the drain
    takes the message off the queue all the same. *)
Lemma drained_without_window k :
  run parentW (cycles k)
    (run parentW (map Dispatch [ping] ++ cycles 2) establishedW)
  = run parentW (map Dispatch [ping] ++ cycles 2) establishedW.
Proof.
  induction k as [|k IH]; [reflexivity|].
  rewrite cycles_S, run_app.
  replace (run parentW [Render; Effects]
             (run parentW (map Dispatch [ping] ++ cycles 2) establishedW))
    with (run parentW (map Dispatch [ping] ++ cycles 2) establishedW)
    by (vm_compute; reflexivity).
  exact IH.
Qed.

(** C4, as stated, fails: an established parent never sends the message
    [0] nor the message submitted after it; and a parent whose frame has
    no content window takes a message off the queue and posts nothing. *)
Lemma queue_fifo_counterexample :
  (isChildMounted (state establishedA) = true
   /\ ~ drainsInOrder parentA establishedA [JNum 0; ping])
  /\ (isChildMounted (state establishedW) = true
      /\ pendingQueue (run parentW (map Dispatch [ping] ++ cycles 2)
                        establishedW) = []
      /\ ~ drainsInOrder parentW establishedW [ping]).
Proof.
  split; split; try reflexivity.
  - intros [k Hk]. destruct k as [|k].
    + vm_compute in Hk. discriminate.
    + rewrite cycles_S, List.app_assoc, run_app in Hk.
      change (map Dispatch [JNum 0; ping] ++ [Render; Effects])
        with (map Dispatch [JNum 0; ping] ++ cycles 1) in Hk.
      rewrite stalled_queue in Hk. vm_compute in Hk. discriminate.
  - split; [reflexivity|]. intros [k Hk].
    destruct k as [|[|k]]; try (vm_compute in Hk; discriminate).
    change (cycles (S (S k))) with (cycles 2 ++ cycles k) in Hk.
    rewrite List.app_assoc, run_app, drained_without_window in Hk.
    vm_compute in Hk. discriminate.
Qed.

(** ** Routing *)






(** C10. A packet that carries the marker and whose message is falsy
    ([false], [0], the empty string or [null]) is decoded and then dropped:
    the listener calls no handler and changes nothing. *)
Theorem falsy_message_dropped env h raw message fromId :
  decodeMessage raw = Some (message, fromId) ->
  In message [JBool false; JNum 0; JStr ""; JNull] ->
  (forall iframeId, eventListener env iframeId raw h = Ok h)
  /\ step env h (Message raw) = h.
Proof.
  intros Hd Hf.
  assert (Hm : truthy message = false).
  { simpl in Hf. destruct Hf as [<-|[<-|[<-|[<-|[]]]]]; reflexivity. }
  assert (Hl : forall iframeId, eventListener env iframeId raw h = Ok h).
  { intros iframeId. unfold eventListener. now rewrite Hd, Hm. }
  split; [exact Hl|]. unfold step.
  destruct (thrown h); [reflexivity|].
  destruct (savedHandler h) as [id|]; [|reflexivity]. now rewrite Hl.
Qed.

Lemma falsy_message_dropped_witness :
  decodeMessage (encodeMessage (JNum 0) (Some "A"))
  = Some (JNum 0, Some (JStr "A"))
  /\ step parentA listeningA (Message (encodeMessage (JNum 0) (Some "A")))
     = listeningA.
Proof.
  split; [reflexivity|].
  exact (proj2 (falsy_message_dropped parentA listeningA
                  (encodeMessage (JNum 0) (Some "A")) (JNum 0)
                  (Some (JStr "A")) eq_refl
                  (or_intror (or_introl eq_refl)))).
Defined.

Lemma falsy_values message :
  truthy message = false
  <-> In message [JBool false; JNum 0; JStr ""; JNull].
Proof.
  split.
  - destruct message as [|[]|n|s|l|l]; simpl; try discriminate; intros H.
    + now right; right; right; left.
    + now left.
    + apply negb_false_iff, Z.eqb_eq in H. subst. now right; left.
    + apply negb_false_iff, String.eqb_eq in H. subst. now right; right; left.
  - simpl. intros [<-|[<-|[<-|[<-|[]]]]]; reflexivity.
Qed.

(** ** The handshake *)






(** ** The announcement of a child *)







(** * The shared state *)

Lemma shared_updates_stamps us : forall s,
  Shared.local (fold_left Shared.applyUpdate us s) = Shared.local s
  /\ Shared.remote (fold_left Shared.applyUpdate us s) = Shared.remote s.
Proof.
  induction us as [|u us IH]; intros s; simpl; [now split|].
  destruct (IH (Shared.applyUpdate s u)) as [-> ->]. now destruct u.
Qed.

(** C7. The value a render returns is the local one when the local
    stamp is greater than the remote one, and the remote one otherwise;
    after a local change stamped 10 and a remote one stamped 5 it is the
    local value, and after a further remote one stamped 15 it is that
    remote value. *)
Theorem last_write_wins :
  (forall now s,
     fst (Shared.render now s)
     = let s1 := fold_left Shared.applyUpdate (Shared.updates s) s in
       if (Shared.local s >? Shared.remote s)%Z
       then Shared.internalState s1 else Shared.remoteState s1)
  /\ (forall initialState now0 now1 v w w' t t',
        let s1 := Shared.mutate v 10 (snd (Shared.mount initialState now0 now1)) in
        let s2 := Shared.handler {| Shared.state := w; Shared.time := 5 |} s1 in
        let s3 := Shared.handler {| Shared.state := w'; Shared.time := 15 |}
                    (snd (Shared.render t s2)) in
        fst (Shared.render t s2) = v
        /\ fst (Shared.render t' s3) = w').
Proof.
  split.
  - intros now s. unfold Shared.render, Shared.observed. cbn [fst].
    destruct (shared_updates_stamps (Shared.updates s) s) as [El Er].
    cbn [Shared.local Shared.remote Shared.clear Shared.internalState
         Shared.remoteState].
    now rewrite El, Er.
  - intros. split; reflexivity.
Qed.

(** C8, amended. A local change takes the reading of the clock as its
    stamp and submits the new value with that stamp; the stamp is greater
    than the one before exactly when the clock has moved past it. *)
Theorem local_stamp_is_clock s v now :
  Shared.local (Shared.mutate v now s) = now
  /\ Shared.internalState (Shared.mutate v now s) = v
  /\ (exists sent,
        Shared.dispatched (Shared.mutate v now s)
        = sent ++ [{| Shared.state := v; Shared.time := now |}])
  /\ (stampIncreases s v now <-> (Shared.local s < now)%Z).
Proof.
  unfold stampIncreases, Shared.mutate, Shared.render, Shared.setInternalState.
  cbn [snd Shared.updates].
  rewrite existsb_app. cbn [existsb Shared.isMutation]. rewrite orb_true_r.
  rewrite fold_left_app. cbn [fold_left Shared.applyUpdate].
  cbn. repeat split; try tauto. eexists. reflexivity.
Qed.

(** C8, as stated, fails: two changes in the same millisecond carry the
    same stamp. *)
Lemma local_stamp_counterexample :
  ~ stampIncreases (snd (Shared.mount JNull 10 10)) (JNum 1) 10.
Proof.
  unfold stampIncreases. vm_compute. intros H. discriminate.
Qed.

(** The message of a local change is an application message like any
    other: truthy, and not a private one. *)
Lemma shared_message_is_ordinary m :
  truthy (Shared.toJson m) = true
  /\ isPrivateMessage (Shared.toJson m) = Ok false.
Proof. split; reflexivity. Qed.

(** * The two sides together *)

(** The child in frame A announces itself; the parent of frame A, to which
    a message was submitted before, posts that message once the
    announcement has arrived, and the listener of the child hands it to the
    handler of the child. *)
Example end_to_end :
  let child := run childA [Effects; Render; Effects] mount in
  let parent :=
    run parentA
      ([Effects; Dispatch ping; Render; Effects]
       ++ map Message (map data (outbox child))
       ++ [Render; Effects])
      mount in
  let child' := run childA (map Message (map data (outbox parent))) child in
  map data (outbox child) = [encodeMessage (mountedMessage "A") (Some "A")]
  /\ isChildMounted (state parent) = true
  /\ map data (outbox parent) = [encodeMessage ping None]
  /\ delivered child' = [ping].
Proof. repeat split; reflexivity. Qed.
